(** * StableFileWatcher: a model of internal/fs/stable_file_watcher.go

    The watcher is a concurrent Go program: one goroutine runs [start] (the
    directory loop), one goroutine per discovered file runs
    [waitUntilFileIsStable] (a tracker), and callers invoke [Close] and receive
    from [Events].  The model is an interleaving semantics: a state records the
    program counter of every goroutine together with the channels, the timers
    and the part of the outside world the program looks at; a label names one
    atomic action of one goroutine, of the Go runtime or of the environment;
    [step] executes it. *)

From Stdlib Require Import ZArith.
From stdpp Require Import base option list gmap strings.

Local Open Scope string_scope.
Local Open Scope list_scope.
Local Open Scope Z_scope.

(** ** Errors and log lines *)

(** Go [error] values.  [Wrapf cause msg] is [errors.Wrapf(cause, format,
    args...)] with the format already expanded into [msg]. *)
Inductive error : Type :=
| Errno (msg : string)
| Wrapf (cause : error) (msg : string).

#[global] Instance error_eq_dec : EqDecision error.
Proof. solve_decision. Defined.

Definition is_wrapped (e : error) : bool :=
  match e with Wrapf _ _ => true | Errno _ => false end.

(** What the program hands to package [log]. *)
Inductive logentry : Type :=
| LogFound (name : string)          (* log.Printf("found existing video: %s\n", name) *)
| LogErr (e : error).               (* log.Println(err) *)

(** ** The collaborators: fsnotify, os, time *)

Module fsnotify.
(** [fsnotify.Op] is a bit mask. *)
Definition Create : Z := 1.
Definition Write : Z := 2.
Definition Remove : Z := 4.
Definition Rename : Z := 8.
Definition Chmod : Z := 16.

Record Event : Type := { Name : string; Op : Z }.

(** The value a receive yields on a closed [Events] channel. *)
Definition zero : Event := {| Name := ""; Op := 0 |}.

(** A [fsnotify.Watcher] as this program sees it: whether [Close] has been
    called, and the errors the watcher is offering on its [Errors] channel. *)
Record Watcher : Type := { closed : bool; Errors : list error }.

Definition fresh : Watcher := {| closed := false; Errors := [] |}.
Definition Close (fw : Watcher) : Watcher :=
  {| closed := true; Errors := Errors fw |}.
Definition offer (e : error) (fw : Watcher) : Watcher :=
  {| closed := closed fw; Errors := Errors fw ++ [e] |}.
End fsnotify.

#[global] Instance Event_eq_dec : EqDecision fsnotify.Event.
Proof. solve_decision. Defined.

(** [os.FileInfo], reduced to the two methods the program calls. *)
Record FileInfo : Type := { fi_Name : string; fi_IsDir : bool }.

(** [os.Stat] used as an existence check: the file system is the set of paths
    that exist. *)
Definition os_Stat (files : gset string) (path : string) : option error :=
  if decide (path ∈ files) then None
  else Some (Errno ("stat " +:+ path +:+ ": no such file or directory")).

(** A [time.Timer]: [when] is the instant it is armed for, [active] tells
    whether the runtime still has it scheduled, [C] is its channel (one slot). *)
Record Timer : Type := { when : Z; active : bool; C : list Z }.

Definition NewTimer (now d : Z) : Timer :=
  {| when := now + d; active := true; C := [] |}.

(** [t.Stop()]: reports whether the call stopped the timer. *)
Definition Timer_Stop (t : Timer) : bool * Timer :=
  (active t, {| when := when t; active := false; C := C t |}).

Definition Timer_Reset (now d : Z) (t : Timer) : Timer :=
  {| when := now + d; active := true; C := C t |}.

(** The runtime fires an active timer at or after [when]: a non-blocking send
    of the current time on [C]. *)
Definition Timer_fire (now : Z) (t : Timer) : option Timer :=
  if active t && (when t <=? now)
  then Some {| when := when t; active := false;
               C := if C t is [] then [now] else C t |}
  else None.

(** [<-t.C]: blocks ([None]) on an empty channel. *)
Definition Timer_recv (t : Timer) : option (Z * Timer) :=
  match C t with
  | v :: rest => Some (v, {| when := when t; active := active t; C := rest |})
  | [] => None
  end.

(** Expirations the timer still owes: the scheduled one plus those sitting
    unread in [C]. *)
Definition pending (t : Timer) : nat :=
  ((if active t then 1 else 0) + length (C t))%nat.

(** ** The watcher *)

Record FileEvent : Type := { Path : string }.

#[global] Instance FileEvent_eq_dec : EqDecision FileEvent.
Proof. solve_decision. Defined.

(** An unbuffered channel holds no data of its own; what the program can
    observe of it is whether it has been closed. *)
Inductive chan : Type := ChOpen | ChClosed.

#[global] Instance chan_eq_dec : EqDecision chan.
Proof. solve_decision. Defined.

(** The struct. *)
Record StableFileWatcher : Type := {
  watchDir : string;
  dirWatcher : fsnotify.Watcher;
  done : chan;
  StableThreshold : Z;
  Events : chan
}.

(** Outcomes of the calls the constructor makes, and the world it starts in. *)
Record Env : Type := {
  env_NewWatcher : option error;                 (* fsnotify.NewWatcher() *)
  env_ReadDir : string -> list FileInfo + error; (* ioutil.ReadDir *)
  env_Add : string -> option error;              (* dirWatcher.Add *)
  env_now : Z;
  env_files : gset string
}.

(** [readFiles]: the entries that are not directories, in order, each one
    logged. *)
Definition readFiles (os : Env) (dir : string)
  : (list FileInfo * list logentry) + error :=
  match env_ReadDir os dir with
  | inr err => inr (Wrapf err ("unable to list " +:+ dir))
  | inl items =>
      let files := filter (fun item => fi_IsDir item = false) items in
      inl (files, (fun item => LogFound (fi_Name item)) <$> files)
  end.

(** ** Goroutines *)

(** Program points of [waitUntilFileIsStable]. *)
Inductive tpc : Type :=
| TNewWatcher     (* line 115: fw, err := fsnotify.NewWatcher() *)
| TAdd            (* line 121: err = fw.Add(path) *)
| TNewTimer       (* line 127: timer := time.NewTimer(w.StableThreshold) *)
| TSelect         (* line 131: select *)
| TStop           (* line 136: timer.Stop() *)
| TDrain          (* line 137: <-timer.C *)
| TReset          (* line 139: timer.Reset(w.StableThreshold) *)
| TStat           (* line 142: os.Stat(path) *)
| TSend           (* line 146: w.Events <- FileEvent{Path: path} *)
| TReturned.

#[global] Instance tpc_eq_dec : EqDecision tpc.
Proof. solve_decision. Defined.

(** One call of [waitUntilFileIsStable]: its argument, its locals, and the
    instant the goroutine was started. *)
Record tracker : Type := {
  path : string;
  pc : tpc;
  fw : option fsnotify.Watcher;
  timer : option Timer;
  spawned : Z
}.

(** [go w.waitUntilFileIsStable(path)] *)
Definition waitUntilFileIsStable (path : string) (now : Z) : tracker :=
  {| path := path; pc := TNewWatcher; fw := None; timer := None;
     spawned := now |}.

(** Leaving the function runs the deferred [timer.Stop()] and [fw.Close()],
    for those already registered. *)
Definition returned (t : tracker) : tracker :=
  {| path := path t; pc := TReturned;
     fw := fsnotify.Close <$> fw t;
     timer := (fun tm => (Timer_Stop tm).2) <$> timer t;
     spawned := spawned t |}.

Definition goto (p : tpc) (t : tracker) : tracker :=
  {| path := path t; pc := p; fw := fw t; timer := timer t;
     spawned := spawned t |}.

Definition set_timer (tm : Timer) (t : tracker) : tracker :=
  {| path := path t; pc := pc t; fw := fw t; timer := Some tm;
     spawned := spawned t |}.

Definition set_fw (f : fsnotify.Watcher) (t : tracker) : tracker :=
  {| path := path t; pc := pc t; fw := Some f; timer := timer t;
     spawned := spawned t |}.

(** Program points of [start]. *)
Inductive dpc : Type :=
| DRange (rest : list FileInfo)   (* lines 87-90, entries still to visit *)
| DSelect                         (* line 93 *)
| DReturned.

(** ** The whole program *)

Record State : Type := {
  w : StableFileWatcher;
  now : Z;                                  (* the clock *)
  files : gset string;                      (* paths that exist *)
  closing : nat;                            (* calls of Close between lines 107 and 108 *)
  dir : dpc;                                (* the goroutine running start *)
  trackers : list tracker;                  (* the goroutines running waitUntilFileIsStable *)
  delivered : list (nat * FileEvent * Z);   (* received from Events: sender, value, instant *)
  logs : list logentry;
  panicked : bool
}.

Definition with_w (f : StableFileWatcher -> StableFileWatcher) (s : State) : State :=
  {| w := f (w s); now := now s; files := files s; closing := closing s;
     dir := dir s; trackers := trackers s; delivered := delivered s;
     logs := logs s; panicked := panicked s |}.

Definition with_now (f : Z -> Z) (s : State) : State :=
  {| w := w s; now := f (now s); files := files s; closing := closing s;
     dir := dir s; trackers := trackers s; delivered := delivered s;
     logs := logs s; panicked := panicked s |}.

Definition with_files (f : gset string -> gset string) (s : State) : State :=
  {| w := w s; now := now s; files := f (files s); closing := closing s;
     dir := dir s; trackers := trackers s; delivered := delivered s;
     logs := logs s; panicked := panicked s |}.

Definition with_closing (f : nat -> nat) (s : State) : State :=
  {| w := w s; now := now s; files := files s; closing := f (closing s);
     dir := dir s; trackers := trackers s; delivered := delivered s;
     logs := logs s; panicked := panicked s |}.

Definition with_dir (d : dpc) (s : State) : State :=
  {| w := w s; now := now s; files := files s; closing := closing s;
     dir := d; trackers := trackers s; delivered := delivered s;
     logs := logs s; panicked := panicked s |}.

Definition with_trackers (f : list tracker -> list tracker) (s : State) : State :=
  {| w := w s; now := now s; files := files s; closing := closing s;
     dir := dir s; trackers := f (trackers s); delivered := delivered s;
     logs := logs s; panicked := panicked s |}.

Definition with_delivered
    (f : list (nat * FileEvent * Z) -> list (nat * FileEvent * Z)) (s : State) : State :=
  {| w := w s; now := now s; files := files s; closing := closing s;
     dir := dir s; trackers := trackers s; delivered := f (delivered s);
     logs := logs s; panicked := panicked s |}.

Definition with_logs (f : list logentry -> list logentry) (s : State) : State :=
  {| w := w s; now := now s; files := files s; closing := closing s;
     dir := dir s; trackers := trackers s; delivered := delivered s;
     logs := f (logs s); panicked := panicked s |}.

Definition panic (s : State) : State :=
  {| w := w s; now := now s; files := files s; closing := closing s;
     dir := dir s; trackers := trackers s; delivered := delivered s;
     logs := logs s; panicked := true |}.

Definition with_dirWatcher (f : fsnotify.Watcher -> fsnotify.Watcher)
    (x : StableFileWatcher) : StableFileWatcher :=
  {| watchDir := watchDir x; dirWatcher := f (dirWatcher x); done := done x;
     StableThreshold := StableThreshold x; Events := Events x |}.

Definition close_done (x : StableFileWatcher) : StableFileWatcher :=
  {| watchDir := watchDir x; dirWatcher := dirWatcher x; done := ChClosed;
     StableThreshold := StableThreshold x; Events := Events x |}.

Definition close_Events (x : StableFileWatcher) : StableFileWatcher :=
  {| watchDir := watchDir x; dirWatcher := dirWatcher x; done := done x;
     StableThreshold := StableThreshold x; Events := ChClosed |}.

(** [close(c)] on channel field [c]: closing a closed channel panics. *)
Definition close_chan (c : StableFileWatcher -> chan)
    (cl : StableFileWatcher -> StableFileWatcher) (s : State) : State :=
  match c (w s) with
  | ChClosed => panic s
  | ChOpen => with_w cl s
  end.

(** *** Atomic actions of a tracker *)

Inductive taction : Type :=
| ANewWatcher (r : option error)   (* line 115 returns r *)
| AAdd (r : option error)          (* line 121 returns r *)
| ANewTimer                        (* line 127 *)
| ADone                            (* line 132: case <-w.done *)
| AEvent (ev : fsnotify.Event)     (* line 134: case <-fw.Events *)
| ATimer                           (* line 140: case <-timer.C *)
| AStop                            (* line 136 *)
| ADrain                           (* line 137 *)
| AReset                           (* line 139 *)
| AStat                            (* lines 142-145 *)
| ASent                            (* line 146 completes: a receiver took the value *)
| ASendClosed                      (* line 146 on a closed channel *)
| AFire                            (* the runtime fires the timer *)
| AError (e : error).              (* fw has an error to offer on fw.Errors *)

(** What an action of a tracker does outside the tracker's own locals. *)
Inductive effect : Type :=
| Quiet
| Say (l : logentry)
| Emit (ev : FileEvent)
| Crash.

Definition tracker_step (x : StableFileWatcher) (now : Z) (files : gset string)
    (t : tracker) (a : taction) : option (tracker * effect) :=
  match a, pc t with
  | ANewWatcher None, TNewWatcher =>
      Some (goto TAdd (set_fw fsnotify.fresh t), Quiet)
  | ANewWatcher (Some err), TNewWatcher =>
      Some (returned t,
            Say (LogErr (Wrapf err ("unable to create watcher, skipping " +:+ path t))))
  | AAdd None, TAdd => Some (goto TNewTimer t, Quiet)
  | AAdd (Some err), TAdd =>
      Some (returned t,
            Say (LogErr (Wrapf err ("unable to watch " +:+ path t +:+ ", skipping"))))
  | ANewTimer, TNewTimer =>
      Some (goto TSelect (set_timer (NewTimer now (StableThreshold x)) t), Quiet)
  | ADone, TSelect =>
      if done x is ChClosed then Some (returned t, Quiet) else None
  | AEvent ev, TSelect =>
      f ← fw t;
      if decide (fsnotify.closed f = true ∧ ev ≠ fsnotify.zero) then None
      else Some (goto TStop t, Quiet)
  | ATimer, TSelect =>
      tm ← timer t; '(_, tm') ← Timer_recv tm;
      Some (goto TStat (set_timer tm' t), Quiet)
  | AStop, TStop =>
      tm ← timer t;
      let '(stopped, tm') := Timer_Stop tm in
      Some (goto (if stopped then TReset else TDrain) (set_timer tm' t), Quiet)
  | ADrain, TDrain =>
      tm ← timer t; '(_, tm') ← Timer_recv tm;
      Some (goto TReset (set_timer tm' t), Quiet)
  | AReset, TReset =>
      tm ← timer t;
      Some (goto TSelect (set_timer (Timer_Reset now (StableThreshold x) tm) t), Quiet)
  | AStat, TStat =>
      match os_Stat files (path t) with
      | Some err =>
          Some (returned t,
                Say (LogErr (Wrapf err ("unable to stat " +:+ path t +:+ ", skipping"))))
      | None => Some (goto TSend t, Quiet)
      end
  | ASent, TSend =>
      if Events x is ChOpen then Some (returned t, Emit {| Path := path t |})
      else None
  | ASendClosed, TSend =>
      if Events x is ChClosed then Some (t, Crash) else None
  | AFire, _ =>
      tm ← timer t; tm' ← Timer_fire now tm; Some (set_timer tm' t, Quiet)
  | AError e, _ =>
      f ← fw t;
      if fsnotify.closed f then None else Some (set_fw (fsnotify.offer e f) t, Quiet)
  | _, _ => None
  end.

(** *** Atomic actions of the directory loop *)

Inductive daction : Type :=
| DoRange                          (* lines 87-90, one iteration or loop exit *)
| DoDone                           (* lines 94-96: case <-w.done *)
| DoEvent (ev : fsnotify.Event).   (* lines 97-100: case fileEvent := <-w.dirWatcher.Events *)

(** The test of line 98. *)
Definition is_create (ev : fsnotify.Event) : bool :=
  Z.land (fsnotify.Op ev) fsnotify.Create =? fsnotify.Create.

Section Program.

(** [filepath.Join] applied to two elements. *)
Variable filepath_Join : string -> string -> string.

(** Result: the next program point, the path of the tracker to start if any,
    and whether [Events] is closed by the action.

    [DoEvent] is the whole of lines 97-100: the receive, the test of line 98
    and the go statement of line 99 are one action, so what another goroutine
    does between the receive and the go statement is not represented.  In
    particular [Close] cannot come between them here, although it can in the
    program; what is proved about [DoEvent] holds of a notification at the
    moment it is received. *)
Definition start_step (x : StableFileWatcher) (d : dpc) (a : daction)
  : option (dpc * option string * bool) :=
  match a, d with
  | DoRange, DRange [] => Some (DSelect, None, false)
  | DoRange, DRange (file :: rest) =>
      Some (DRange rest, Some (filepath_Join (watchDir x) (fi_Name file)), false)
  | DoDone, DSelect =>
      if done x is ChClosed then Some (DReturned, None, true) else None
  | DoEvent ev, DSelect =>
      if decide (fsnotify.closed (dirWatcher x) = true ∧ ev ≠ fsnotify.zero)
      then None
      else Some (DSelect, if is_create ev then Some (fsnotify.Name ev) else None, false)
  | _, _ => None
  end.

(** *** Labels and the step function *)

Inductive label : Type :=
| Tick (dt : Z)                    (* time passes *)
| FsCreate (p : string)            (* somebody creates p *)
| FsRemove (p : string)            (* somebody removes or renames away p *)
| DirError (e : error)             (* dirWatcher has an error to offer on dirWatcher.Errors *)
| CloseDirWatcher                  (* a caller of Close executes line 107 *)
| CloseDone                        (* a caller of Close executes line 108 *)
| Dir (a : daction)
| Trk (i : nat) (a : taction).

Definition apply_effect (i : nat) (e : effect) (s : State) : State :=
  match e with
  | Quiet => s
  | Say l => with_logs (fun ls => ls ++ [l]) s
  | Emit ev => with_delivered (fun ds => ds ++ [(i, ev, now s)]) s
  | Crash => panic s
  end.

Definition spawn (p : option string) (s : State) : State :=
  match p with
  | Some path => with_trackers (fun ts => ts ++ [waitUntilFileIsStable path (now s)]) s
  | None => s
  end.

Definition step (s : State) (l : label) : option State :=
  if panicked s then None else
  match l with
  | Tick dt => if decide (0 <= dt) then Some (with_now (fun n => n + dt) s) else None
  | FsCreate p => Some (with_files (fun fs => {[p]} ∪ fs) s)
  | FsRemove p => Some (with_files (fun fs => fs ∖ {[p]}) s)
  | DirError e =>
      if fsnotify.closed (dirWatcher (w s)) then None
      else Some (with_w (with_dirWatcher (fsnotify.offer e)) s)
  | CloseDirWatcher =>
      Some (with_closing S (with_w (with_dirWatcher fsnotify.Close) s))
  | CloseDone =>
      match closing s with
      | O => None
      | S n => Some (close_chan done close_done (with_closing (fun _ => n) s))
      end
  | Dir a =>
      '(d, p, cl) ← start_step (w s) (dir s) a;
      let s1 := spawn p (with_dir d s) in
      Some (if cl : bool then close_chan Events close_Events s1 else s1)
  | Trk i a =>
      t ← trackers s !! i;
      '(t', e) ← tracker_step (w s) (now s) (files s) t a;
      Some (apply_effect i e (with_trackers (fun ts => <[i := t']> ts) s))
  end.

Fixpoint run (s : State) (tr : list label) : option State :=
  match tr with
  | [] => Some s
  | l :: tr' => s' ← step s l; run s' tr'
  end.

(** [Close]: lines 107 and 108, executed by one caller without interruption. *)
Definition Close (s : State) : option State := run s [CloseDirWatcher; CloseDone].

(** [NewStableFileWatcher]: the pair (watcher, error) of the Go function; the
    watcher comes with the program it has started, [go w.start(existingFiles)]. *)
Definition NewStableFileWatcher (os : Env) (watchDir : string) (stableThreshold : Z)
  : option State * option error :=
  match env_NewWatcher os with
  | Some err => (None, Some (Wrapf err "unable to create a file system watcher"))
  | None =>
      match readFiles os watchDir with
      | inr err => (None, Some err)
      | inl (existingFiles, printed) =>
          match env_Add os watchDir with
          | Some err => (None, Some (Wrapf err ("unable to start watching " +:+ watchDir)))
          | None =>
              (Some {| w := {| watchDir := watchDir; dirWatcher := fsnotify.fresh;
                               done := ChOpen; StableThreshold := stableThreshold;
                               Events := ChOpen |};
                       now := env_now os; files := env_files os; closing := 0;
                       dir := DRange existingFiles; trackers := [];
                       delivered := []; logs := printed; panicked := false |},
               None)
          end
      end
  end.


(** Executions of the program a successful constructor call has started. *)
Definition reachable (s : State) : Prop :=
  ∃ os watchDir stableThreshold s0 tr,
    NewStableFileWatcher os watchDir stableThreshold = (Some s0, None) ∧
    run s0 tr = Some s.

(** The senders of the values received from [Events] so far. *)
Definition senders (s : State) : list nat := (fun d => d.1.1) <$> delivered s.

(** What has been received from [Events] of the values sent by tracker [i]. *)
Definition sent_by (i : nat) (s : State) : list (nat * FileEvent * Z) :=
  filter (fun d => d.1.1 = i) (delivered s).

(** ** Invariants *)

(** The state of a tracker's timer at each program point, and the instants it
    carries, for threshold [thr] at instant [now]. *)
Definition timer_at (p : tpc) (tm : Timer) : Prop :=
  match p with
  | TNewWatcher | TAdd | TNewTimer => False
  | TSelect | TStop => pending tm = 1%nat
  | TDrain => active tm = false ∧ length (C tm) = 1%nat
  | TReset => active tm = false ∧ C tm = []
  | TStat | TSend => active tm = false ∧ C tm = []
  | TReturned => active tm = false ∧ (length (C tm) <= 1)%nat
  end.

Definition has_timer (p : tpc) : bool :=
  match p with
  | TNewWatcher | TAdd | TNewTimer | TReturned => false
  | _ => true
  end.

(** At these program points the tracker has received the timer's expiration. *)
Definition quiet_elapsed (p : tpc) : bool :=
  match p with TStat | TSend => true | _ => false end.

Definition tracker_inv (thr now : Z) (t : tracker) : Prop :=
  spawned t <= now ∧
  match timer t with
  | None => has_timer (pc t) = false
  | Some tm =>
      timer_at (pc t) tm ∧ spawned t + thr <= when tm ∧
      (∀ v, v ∈ C tm → when tm <= v <= now) ∧
      (quiet_elapsed (pc t) = true → when tm <= now)
  end.

Record inv (s : State) : Prop := {
  inv_trackers : Forall (tracker_inv (StableThreshold (w s)) (now s)) (trackers s);
  inv_delivered : ∀ i ev time, (i, ev, time) ∈ delivered s →
    ∃ t, trackers s !! i = Some t ∧ pc t = TReturned ∧ ev = {| Path := path t |} ∧
         spawned t + StableThreshold (w s) <= time <= now s;
  inv_once : NoDup (senders s);
  inv_Events : Events (w s) = ChClosed ↔ dir s = DReturned;
  inv_dir : dir s = DReturned → done (w s) = ChClosed;
  inv_panicked : panicked s = true → done (w s) = ChClosed;
  inv_done : done (w s) = ChClosed → fsnotify.closed (dirWatcher (w s)) = true;
  inv_closing : (0 < closing s)%nat → fsnotify.closed (dirWatcher (w s)) = true
}.

(** ** Elementary facts about steps *)

Lemma step_alive s l s' : step s l = Some s' → panicked s = false.
Proof. unfold step. by destruct (panicked s). Qed.

Lemma step_Trk s i a s' :
  step s (Trk i a) = Some s' →
  ∃ t t' e, trackers s !! i = Some t ∧
    tracker_step (w s) (now s) (files s) t a = Some (t', e) ∧
    s' = apply_effect i e (with_trackers (fun ts => <[i := t']> ts) s).
Proof.
  unfold step. destruct (panicked s); [done|]. intros H.
  destruct (trackers s !! i) as [t|] eqn:Ht; [|done]. simpl in H.
  destruct (tracker_step _ _ _ t a) as [[t' e]|] eqn:Hs; [|done].
  simpl in H. injection H as <-. by exists t, t', e.
Qed.

Lemma step_Dir s a s' :
  step s (Dir a) = Some s' →
  ∃ d p cl, start_step (w s) (dir s) a = Some (d, p, cl) ∧
    s' = (let s1 := spawn p (with_dir d s) in
          if cl : bool then close_chan Events close_Events s1 else s1).
Proof.
  unfold step. destruct (panicked s); [done|]. intros H.
  destruct (start_step _ _ a) as [[[d p] cl]|] eqn:Hs; [|done].
  simpl in H. injection H as <-. by exists d, p, cl.
Qed.

(** ** The tracker's invariant is kept by each of its actions *)

Lemma Timer_recv_Some tm v tm' :
  Timer_recv tm = Some (v, tm') →
  C tm = v :: C tm' ∧ when tm' = when tm ∧ active tm' = active tm.
Proof.
  unfold Timer_recv. destruct (C tm) as [|v0 rest] eqn:HC; [done|].
  intros [= <- <-]. by simpl.
Qed.

Lemma Timer_fire_Some now tm tm' :
  Timer_fire now tm = Some tm' →
  active tm = true ∧ when tm <= now ∧ when tm' = when tm ∧ active tm' = false ∧
  C tm' = (if C tm is [] then [now] else C tm).
Proof.
  unfold Timer_fire. destruct (active tm); simpl; [|done].
  destruct (Z.leb_spec (when tm) now); [|done].
  intros [= <-]. by simpl.
Qed.


(** Case analysis on an equation [... = Some _] obtained from a step. *)
Ltac step_cases :=
  repeat match goal with
    | H : (match ?o with Some _ => _ | None => _ end) = Some _ |- _ =>
        destruct o eqn:?; simpl in H; try done
    | H : (?o ≫= _) = Some _ |- _ => destruct o eqn:?; simpl in H; try done
    | H : (if decide ?P then _ else _) = Some _ |- _ => destruct (decide P); try done
    | H : (let '(_, _) := ?p in _) = Some _ |- _ => destruct p eqn:?; simpl in H
    | H : (match ?c with ChOpen => _ | ChClosed => _ end) = Some _ |- _ =>
        destruct c eqn:?; try done
    | H : (match ?n with O => _ | S _ => _ end) = Some _ |- _ =>
        destruct n eqn:?; try done
    | H : (if ?a <=? ?b then _ else _) = Some _ |- _ =>
        destruct (Z.leb_spec a b); try done
    | H : (if ?b then _ else _) = Some _ |- _ => destruct b eqn:?; try done
    | H : Some _ = Some _ |- _ => injection H as H; try subst
    | H : (_, _) = (_, _) |- _ => injection H as ? ?; try subst
    end.

Lemma tracker_step_inv x now files t a t' e :
  tracker_inv (StableThreshold x) now t →
  tracker_step x now files t a = Some (t', e) →
  tracker_inv (StableThreshold x) now t'.
Proof.
  unfold tracker_inv. intros [Hsp Htm] Hstep.
  destruct t as [p c f [[wh ac ch]|] sp]; simpl in *.
  all: destruct a as [[err|]|[err|]| | |ev| | | | | | | | |err]; destruct c;
    simpl in Hstep; try done.
  all: unfold Timer_recv, Timer_fire, Timer_Stop in Hstep; simpl in Hstep.
  all: step_cases; simpl.
  all: unfold pending in *; simpl in *.
  all: try (destruct ac; simpl in *).
  all: try (destruct ch as [|v1 [|v2 ch]]; simpl in * ).
  all: try done.
  all: simplify_eq; simpl.
  all: destruct_and?; repeat match goal with |- _ ∧ _ => split end.
  all: try done; try lia.
  all: try (intros v Hv; first
        [ by apply not_elem_of_nil in Hv
        | apply list_elem_of_singleton in Hv as ->;
          match goal with H : ∀ v, v ∈ [_] → _ |- _ =>
            specialize (H _ (list_elem_of_here _ _)) end; lia
        | apply list_elem_of_singleton in Hv as ->; lia ]).
  all: intros _; match goal with H : ∀ v, v ∈ [_] → _ |- _ =>
         specialize (H _ (list_elem_of_here _ _)) end; lia.
Qed.

Lemma tracker_inv_later thr now now' t :
  now <= now' → tracker_inv thr now t → tracker_inv thr now' t.
Proof.
  unfold tracker_inv. intros Hle [Hsp Htm]. split; [lia|].
  destruct (timer t) as [tm|]; [|done].
  destruct Htm as (? & ? & HC & Hq). repeat split; try done.
  - apply HC. done.
  - specialize (HC _ H1). lia.
  - intros Hp. specialize (Hq Hp). lia.
Qed.

Lemma tracker_inv_spawn thr now path :
  tracker_inv thr now (waitUntilFileIsStable path now).
Proof. unfold tracker_inv. simpl. split; [lia|done]. Qed.

(** ** What an action of a tracker can do *)

Lemma tracker_step_same x now files t a t' e :
  tracker_step x now files t a = Some (t', e) →
  path t' = path t ∧ spawned t' = spawned t.
Proof.
  intros Hstep. destruct a as [[?|]|[?|]| | |?| | | | | | | | |?]; destruct (pc t) eqn:Hpc;
    simpl in Hstep; rewrite ?Hpc in Hstep; try done.
  all: step_cases; done.
Qed.

Lemma tracker_step_returned x now files t a t' e :
  pc t = TReturned →
  tracker_step x now files t a = Some (t', e) →
  pc t' = TReturned ∧ e = Quiet.
Proof.
  intros Hpc Hstep. destruct a as [[?|]|[?|]| | |?| | | | | | | | |?];
    simpl in Hstep; rewrite ?Hpc in Hstep; try done.
  all: step_cases; done.
Qed.

Lemma tracker_step_Emit x now files t a t' ev :
  tracker_step x now files t a = Some (t', Emit ev) →
  a = ASent ∧ pc t = TSend ∧ Events x = ChOpen ∧
  t' = returned t ∧ ev = {| Path := path t |}.
Proof.
  intros Hstep. destruct a as [[?|]|[?|]| | |?| | | | | | | | |?]; destruct (pc t) eqn:Hpc;
    simpl in Hstep; rewrite ?Hpc in Hstep; try done.
  all: step_cases; done.
Qed.

Lemma tracker_step_Crash x now files t a t' :
  tracker_step x now files t a = Some (t', Crash) →
  a = ASendClosed ∧ pc t = TSend ∧ Events x = ChClosed ∧ t' = t.
Proof.
  intros Hstep. destruct a as [[?|]|[?|]| | |?| | | | | | | | |?]; destruct (pc t) eqn:Hpc;
    simpl in Hstep; rewrite ?Hpc in Hstep; try done.
  all: step_cases; done.
Qed.

(** ** The invariant holds in every reachable state *)

Lemma senders_app s i ev time :
  senders (with_delivered (fun ds => ds ++ [(i, ev, time)]) s) =
  senders s ++ [i].
Proof. unfold senders. simpl. by rewrite fmap_app. Qed.

Lemma inv_step s l s' : inv s → step s l = Some s' → inv s'.
Proof.
  intros [Htr Hdel Honce HEv Hdir Hpan Hdone Hcl] Hstep.
  pose proof (step_alive _ _ _ Hstep) as Halive.
  destruct l as [dt|p|p|e| | |a|i a].
  - (* Tick *)
    unfold step in Hstep. rewrite Halive in Hstep. step_cases.
    constructor; simpl; try done.
    + eapply Forall_impl; [exact Htr|]. intros t. apply tracker_inv_later. lia.
    + intros i ev time Hin. destruct (Hdel _ _ _ Hin) as (t & ? & ? & ? & ?).
      exists t. repeat split; try done; lia.
  - unfold step in Hstep. rewrite Halive in Hstep. step_cases. constructor; simpl; done.
  - unfold step in Hstep. rewrite Halive in Hstep. step_cases. constructor; simpl; done.
  - unfold step in Hstep. rewrite Halive in Hstep. step_cases.
    constructor; simpl; try done; intuition congruence.
  - unfold step in Hstep. rewrite Halive in Hstep. step_cases.
    constructor; simpl; try done.
  - unfold step in Hstep. rewrite Halive in Hstep.
    destruct (closing s) as [|n] eqn:Hn; [done|]. step_cases.
    unfold close_chan. simpl.
    assert (fsnotify.closed (dirWatcher (w s)) = true) as Hc by (apply Hcl; lia).
    destruct (done (w s)) eqn:Hd; constructor; simpl; try done.
  - (* the directory loop *)
    apply step_Dir in Hstep as (d & p & cl & Hs & ->).
    assert (inv (spawn p (with_dir d s)) ∨ True) as _ by (by right).
    destruct a as [| |ev]; destruct (dir s) as [[|file rest]| |] eqn:Hd;
      simpl in Hs; try done; step_cases; simpl.
    + constructor; simpl; try done. intuition congruence.
    + constructor; simpl; try done.
      * apply Forall_app. split; [done|]. apply Forall_singleton, tracker_inv_spawn.
      * intros i ev time Hin. destruct (Hdel _ _ _ Hin) as (t & Hl & ?).
        exists t. split; [|done]. by apply lookup_app_l_Some.
      * intuition congruence.
    + unfold close_chan. simpl.
      destruct (Events (w s)) eqn:HE; [|intuition congruence].
      constructor; simpl; try done; intuition congruence.
    + destruct (is_create ev); simpl; constructor; simpl; try done.
      all: try (intuition congruence).
      * apply Forall_app. split; [done|]. apply Forall_singleton, tracker_inv_spawn.
      * intros i ev' time Hin. destruct (Hdel _ _ _ Hin) as (t & Hl & ?).
        exists t. split; [|done]. by apply lookup_app_l_Some.
  - (* a tracker *)
    apply step_Trk in Hstep as (t & t' & e & Hl & Hs & ->).
    pose proof (tracker_step_same _ _ _ _ _ _ _ Hs) as [Hp Hsp].
    assert (Hti : tracker_inv (StableThreshold (w s)) (now s) t)
      by (eapply Forall_lookup_1; eauto).
    pose proof (tracker_step_inv _ _ _ _ _ _ _ Hti Hs) as Hti'.
    assert (Hkeep : ∀ j ev time, (j, ev, time) ∈ delivered s →
      ∃ u, <[i:=t']> (trackers s) !! j = Some u ∧ pc u = TReturned ∧
           ev = {| Path := path u |} ∧
           spawned u + StableThreshold (w s) <= time <= now s).
    { intros j ev time Hin. destruct (Hdel _ _ _ Hin) as (u & Hu & Hr & -> & Ht).
      destruct (decide (i = j)) as [->|Hne].
      - assert (u = t) as -> by congruence.
        destruct (tracker_step_returned _ _ _ _ _ _ _ Hr Hs) as [Hr' _].
        exists t'. rewrite list_lookup_insert_eq by (by eapply lookup_lt_Some).
        rewrite Hp, Hsp. done.
      - exists u. by rewrite list_lookup_insert_ne. }
    destruct e as [|msg|ev|]; simpl.
    + constructor; simpl; try done. by apply Forall_insert.
    + constructor; simpl; try done. by apply Forall_insert.
    + apply tracker_step_Emit in Hs as (-> & Hpc & HE & -> & ->).
      constructor; simpl; try done.
      * by apply Forall_insert.
      * intros j ev time Hin. apply elem_of_app in Hin as [Hin|Hin]; [by apply Hkeep|].
        apply list_elem_of_singleton in Hin. injection Hin as -> -> ->.
        exists (returned t). rewrite list_lookup_insert_eq by (by eapply lookup_lt_Some).
        repeat split; try done.
        unfold tracker_inv in Hti. rewrite Hpc in Hti. destruct Hti as [? Hti].
        destruct (timer t) as [tm|]; [|done]. simpl in Hti.
        destruct Hti as (_ & ? & _ & Hq). specialize (Hq eq_refl). lia.
      * change (NoDup (senders (with_delivered
          (fun ds => ds ++ [(i, {| Path := path t |}, now s)]) s))).
        rewrite senders_app. apply NoDup_app. split; [done|]. split; [|apply NoDup_singleton].
        intros j Hj Hji. apply list_elem_of_singleton in Hji as ->.
        unfold senders in Hj. apply list_elem_of_fmap in Hj as ([[j ev] time] & -> & Hin).
        destruct (Hdel _ _ _ Hin) as (u & Hu & Hr & _). simpl in Hu.
        simpl in Hl. assert (u = t) as -> by congruence. congruence.
    + apply tracker_step_Crash in Hs as (-> & Hpc & HE & ->).
      constructor; simpl; try done.
      * by apply Forall_insert.
      * intros _. apply Hdir. by apply HEv.
Qed.

Lemma NewStableFileWatcher_Some os dirp d s0 e :
  NewStableFileWatcher os dirp d = (Some s0, e) →
  e = None ∧ env_NewWatcher os = None ∧ env_Add os dirp = None ∧
  ∃ items, env_ReadDir os dirp = inl items ∧
    s0 = {| w := {| watchDir := dirp; dirWatcher := fsnotify.fresh;
                    done := ChOpen; StableThreshold := d; Events := ChOpen |};
            now := env_now os; files := env_files os; closing := 0;
            dir := DRange (filter (fun item => fi_IsDir item = false) items);
            trackers := []; delivered := [];
            logs := (fun item => LogFound (fi_Name item)) <$>
                    filter (fun item => fi_IsDir item = false) items;
            panicked := false |}.
Proof.
  unfold NewStableFileWatcher, readFiles.
  destruct (env_NewWatcher os); [done|].
  destruct (env_ReadDir os dirp) as [items|]; [|done].
  destruct (env_Add os dirp); [done|].
  intros [= <- <-]. repeat split. by exists items.
Qed.

Lemma inv_init os dirp d s0 :
  NewStableFileWatcher os dirp d = (Some s0, None) → inv s0.
Proof.
  intros H. apply NewStableFileWatcher_Some in H as (_ & _ & _ & items & _ & ->).
  constructor; simpl; try done.
  - intros i ev time Hin. by apply not_elem_of_nil in Hin.
  - apply NoDup_nil_2.
  - lia.
Qed.

Lemma run_app s tr1 tr2 :
  run s (tr1 ++ tr2) = run s tr1 ≫= fun s1 => run s1 tr2.
Proof.
  revert s. induction tr1 as [|l tr1 IH]; intros s; simpl; [done|].
  destruct (step s l) as [s1|]; simpl; [apply IH|done].
Qed.

Lemma inv_run s tr s' : inv s → run s tr = Some s' → inv s'.
Proof.
  revert s. induction tr as [|l tr IH]; intros s Hinv; simpl.
  - by intros [= <-].
  - destruct (step s l) as [s1|] eqn:Hs; simpl; [|done].
    apply IH. by eapply inv_step.
Qed.

Lemma reachable_inv s : reachable s → inv s.
Proof.
  intros (os & dirp & d & s0 & tr & H0 & Hrun).
  eapply inv_run; [|exact Hrun]. by eapply inv_init.
Qed.

Lemma reachable_run s tr s' : reachable s → run s tr = Some s' → reachable s'.
Proof.
  intros (os & dirp & d & s0 & tr0 & H0 & Hrun) Hrun'.
  exists os, dirp, d, s0, (tr0 ++ tr). split; [done|].
  rewrite run_app, Hrun. done.
Qed.

Lemma reachable_step s l s' : reachable s → step s l = Some s' → reachable s'.
Proof.
  intros Hr Hs. apply (reachable_run s [l]); [done|]. simpl. by rewrite Hs.
Qed.

(** ** The constructor *)

(** C7: [NewStableFileWatcher] returns an error exactly when one of its three
    steps fails (creating the notification source, listing the directory,
    registering the directory); the error is then a wrapped one and no watcher
    is returned; otherwise it returns, with a nil error, a watcher holding the
    given directory and threshold. *)
Theorem NewStableFileWatcher_error_iff (os : Env) (dirp : string) (d : Z) :
  let r := NewStableFileWatcher os dirp d in
  (is_Some r.2 ↔
     is_Some (env_NewWatcher os) ∨ (∃ e, env_ReadDir os dirp = inr e) ∨
     is_Some (env_Add os dirp)) ∧
  (∀ e, r.2 = Some e → r.1 = None ∧ is_wrapped e = true) ∧
  (r.2 = None →
     ∃ s, r.1 = Some s ∧ watchDir (w s) = dirp ∧ StableThreshold (w s) = d ∧
          done (w s) = ChOpen ∧ Events (w s) = ChOpen ∧
          fsnotify.closed (dirWatcher (w s)) = false ∧ panicked s = false).
Proof.
  unfold NewStableFileWatcher, readFiles.
  destruct (env_NewWatcher os) as [e1|] eqn:H1; simpl.
  { split; [|split]; [|by intros e [= <-]|done].
    split; [intros _; left; by eexists|intros _; by eexists]. }
  destruct (env_ReadDir os dirp) as [items|e2] eqn:H2; simpl.
  2:{ split; [|split]; [|by intros e [= <-]|done].
      split; [intros _; right; left; by eexists|intros _; by eexists]. }
  destruct (env_Add os dirp) as [e3|] eqn:H3; simpl.
  { split; [|split]; [|by intros e [= <-]|done].
    split; [intros _; right; right; by eexists|intros _; by eexists]. }
  split; [|split]; [|done|].
  - split; [by intros [? ?]|].
    intros [[? ?]|[[? ?]|[? ?]]]; done.
  - intros _. eexists. repeat split.
Qed.

(** ** The directory loop *)

Lemma is_create_testbit ev : is_create ev = Z.testbit (fsnotify.Op ev) 0.
Proof.
  unfold is_create, fsnotify.Create. rewrite Z.bit0_odd.
  change 1 with (Z.ones 1). rewrite Z.land_ones by lia. change (2 ^ 1) with 2.
  rewrite Zodd_mod. done.
Qed.

(** C5: in its select loop [start] starts a tracker if and only if it receives
    a notification whose operation includes create (bit 0 of the mask), and
    then on the notified path; any other notification (write, remove, rename,
    chmod or a combination of them) and the cancellation case start none. *)
Theorem start_spawns_iff_create (s : State) :
  dir s = DSelect → panicked s = false →
  (∀ ev, fsnotify.closed (dirWatcher (w s)) = false →
     ∃ s', step s (Dir (DoEvent ev)) = Some s' ∧ dir s' = DSelect ∧
       trackers s' =
         if Z.testbit (fsnotify.Op ev) 0
         then trackers s ++ [waitUntilFileIsStable (fsnotify.Name ev) (now s)]
         else trackers s) ∧
  (∀ a s', step s (Dir a) = Some s' →
     trackers s' ≠ trackers s ↔
     ∃ ev, a = DoEvent ev ∧ Z.testbit (fsnotify.Op ev) 0 = true ∧
           trackers s' = trackers s ++ [waitUntilFileIsStable (fsnotify.Name ev) (now s)]).
Proof.
  intros Hd Halive. split.
  - intros ev Hopen. unfold step. rewrite Halive. simpl. rewrite Hd. simpl.
    rewrite Hopen. destruct (decide _) as [[? _]|_]; [done|]. simpl.
    rewrite is_create_testbit. eexists. split; [done|].
    rewrite ?Z.bit0_odd. destruct (Z.odd _); done.
  - intros a s' Hs. apply step_Dir in Hs as (d & p & cl & Hs & ->).
    rewrite Hd in Hs. destruct a as [| |ev]; simpl in Hs; try done; step_cases.
    + unfold close_chan. simpl. split.
      * intros Hne. exfalso. apply Hne. by destruct (Events (w s)).
      * by intros (? & ? & _).
    + rewrite is_create_testbit. destruct (Z.testbit _ 0) eqn:Hb; simpl.
      * split; [intros _; by exists ev|].
        intros _ Heq. apply (f_equal length) in Heq. rewrite length_app in Heq.
        simpl in Heq. lia.
      * split; [done|]. intros (ev' & [= <-] & Hb' & _). rewrite Z.bit0_odd in Hb. simpl in Hb'. congruence.
Qed.

(** The operations that are not create-type: one of, or a combination of,
    write, remove, rename and chmod. *)
Lemma not_create_kinds ev :
  Z.land (fsnotify.Op ev) (Z.lor fsnotify.Write (Z.lor fsnotify.Remove
    (Z.lor fsnotify.Rename fsnotify.Chmod))) = fsnotify.Op ev →
  Z.testbit (fsnotify.Op ev) 0 = false.
Proof.
  intros H. rewrite <- H. rewrite Z.land_spec. apply andb_false_r.
Qed.

(** ** Who sends on [Events], and when *)

Lemma close_chan_frame c f s :
  trackers (close_chan c f s) = trackers s ∧
  delivered (close_chan c f s) = delivered s ∧
  logs (close_chan c f s) = logs s ∧
  dir (close_chan c f s) = dir s ∧
  now (close_chan c f s) = now s ∧
  files (close_chan c f s) = files s.
Proof. unfold close_chan. by destruct (c (w s)). Qed.

Lemma step_delivered s l s' :
  step s l = Some s' →
  delivered s' = delivered s ∨
  ∃ i t, l = Trk i ASent ∧ trackers s !! i = Some t ∧ pc t = TSend ∧
    Events (w s) = ChOpen ∧
    delivered s' = delivered s ++ [(i, {| Path := path t |}, now s)] ∧
    trackers s' = <[i := returned t]> (trackers s).
Proof.
  intros Hstep. pose proof (step_alive _ _ _ Hstep) as Halive.
  destruct l as [dt|p|p|e| | |a|i a].
  1-6: unfold step in Hstep; rewrite Halive in Hstep; step_cases; try (by left).
  - left. by rewrite (proj1 (proj2 (close_chan_frame _ _ _))).
  - left. apply step_Dir in Hstep as (d & p & cl & Hs & ->). simpl.
    destruct cl; rewrite ?(proj1 (proj2 (close_chan_frame _ _ _))); by destruct p.
  - apply step_Trk in Hstep as (t & t' & e & Hl & Hs & ->).
    destruct e as [|msg|ev|]; simpl; try (by left).
    apply tracker_step_Emit in Hs as (-> & Hpc & HE & -> & ->).
    right. by exists i, t.
Qed.

Lemma step_tracker_kept s l s' i t :
  trackers s !! i = Some t → step s l = Some s' →
  ∃ t', trackers s' !! i = Some t' ∧ path t' = path t ∧ spawned t' = spawned t ∧
        (pc t = TReturned → pc t' = TReturned) ∧
        (t' = t ∨ ∃ a, l = Trk i a).
Proof.
  intros Hi Hstep. pose proof (step_alive _ _ _ Hstep) as Halive.
  destruct l as [dt|p|p|e| | |a|j a].
  1-6: unfold step in Hstep; rewrite Halive in Hstep; step_cases;
       try (exists t; repeat split; try done; by left).
  - rewrite (proj1 (close_chan_frame _ _ _)). exists t. repeat split; try done. by left.
  - apply step_Dir in Hstep as (d & p & cl & Hs & ->). simpl.
    exists t.
    destruct cl; rewrite ?(proj1 (close_chan_frame _ _ _));
      destruct p; simpl; repeat split; try done; try (by left).
    all: by apply lookup_app_l_Some.
  - apply step_Trk in Hstep as (u & u' & e & Hl & Hs & ->).
    assert (trackers (apply_effect j e (with_trackers (fun ts => <[j:=u']> ts) s)) =
            <[j:=u']> (trackers s)) as -> by (by destruct e).
    destruct (decide (j = i)) as [->|Hne].
    + assert (u = t) as -> by congruence.
      exists u'. rewrite list_lookup_insert_eq by (by eapply lookup_lt_Some).
      destruct (tracker_step_same _ _ _ _ _ _ _ Hs) as [? ?].
      repeat split; try done.
      * intros Hr. by destruct (tracker_step_returned _ _ _ _ _ _ _ Hr Hs).
      * right. by exists a.
    + exists t. rewrite list_lookup_insert_ne by done. repeat split; try done. by left.
Qed.

Lemma step_sent_by s l s' i :
  step s l = Some s' →
  sent_by i s' = sent_by i s ∨
  ∃ t, l = Trk i ASent ∧ trackers s !! i = Some t ∧ pc t = TSend ∧
    Events (w s) = ChOpen ∧
    sent_by i s' = sent_by i s ++ [(i, {| Path := path t |}, now s)] ∧
    trackers s' !! i = Some (returned t).
Proof.
  intros Hstep. destruct (step_delivered _ _ _ Hstep) as [Heq|(j & t & -> & Hj & Hpc & HE & Hd & Ht)].
  - left. unfold sent_by. by rewrite Heq.
  - unfold sent_by. rewrite Hd, filter_app, filter_cons, filter_nil. simpl.
    destruct (decide (j = i)) as [->|Hne].
    + right. exists t. repeat split; try done.
      rewrite Ht. apply list_lookup_insert_eq. by eapply lookup_lt_Some.
    + left. by rewrite app_nil_r.
Qed.

(** A tracker that has returned stays so and sends nothing any more. *)
Lemma returned_never_sends s tr s' i t :
  trackers s !! i = Some t → pc t = TReturned → run s tr = Some s' →
  sent_by i s' = sent_by i s ∧
  ∃ t', trackers s' !! i = Some t' ∧ pc t' = TReturned ∧ path t' = path t.
Proof.
  revert s t. induction tr as [|l tr IH]; intros s t Hi Hr; simpl.
  - intros [= <-]. split; [done|]. by exists t.
  - destruct (step s l) as [s1|] eqn:Hs; simpl; [|done]. intros Hrun.
    destruct (step_tracker_kept _ _ _ _ _ Hi Hs) as (t1 & Hi1 & Hp1 & _ & Hr1 & _).
    destruct (IH _ _ Hi1 (Hr1 Hr) Hrun) as (Heq & t' & ? & ? & ?).
    split; [|exists t'; repeat split; congruence].
    rewrite Heq. destruct (step_sent_by _ _ _ i Hs) as [?|(u & _ & Hu & Hpc & _)]; [done|].
    congruence.
Qed.

(** The control flow of [waitUntilFileIsStable]. *)
Lemma tracker_step_pc x now files t a t' e :
  tracker_step x now files t a = Some (t', e) →
  match a with
  | ANewWatcher r => pc t = TNewWatcher ∧ pc t' = (if r is Some _ then TReturned else TAdd)
  | AAdd r => pc t = TAdd ∧ pc t' = (if r is Some _ then TReturned else TNewTimer)
  | ANewTimer => pc t = TNewTimer ∧ pc t' = TSelect
  | ADone => pc t = TSelect ∧ pc t' = TReturned ∧ done x = ChClosed
  | AEvent _ => pc t = TSelect ∧ pc t' = TStop
  | ATimer => pc t = TSelect ∧ pc t' = TStat
  | AStop => pc t = TStop ∧ (pc t' = TReset ∨ pc t' = TDrain)
  | ADrain => pc t = TDrain ∧ pc t' = TReset
  | AReset => pc t = TReset ∧ pc t' = TSelect
  | AStat => pc t = TStat ∧
             pc t' = (if decide (path t ∈ files) then TSend else TReturned)
  | ASent => pc t = TSend ∧ pc t' = TReturned
  | ASendClosed => pc t = TSend ∧ pc t' = TSend
  | AFire | AError _ => pc t' = pc t
  end.
Proof.
  intros Hstep. destruct a as [[?|]|[?|]| | |?| | | | | | | | |?]; destruct (pc t) eqn:Hpc;
    simpl in Hstep; rewrite ?Hpc in Hstep; try done.
  all: unfold os_Stat in *; step_cases; simpl; try done.
  all: try (by destruct (decide _)).
  split; [done|]. destruct (active _); by (left + right).
Qed.

(** A tracker blocked in the send of line 146 sends its one value, or nothing. *)
Lemma sending_sends_once s tr s' i t :
  trackers s !! i = Some t → pc t = TSend → run s tr = Some s' →
  (sent_by i s' = sent_by i s ∧
   ∃ t', trackers s' !! i = Some t' ∧ pc t' = TSend ∧ path t' = path t) ∨
  (∃ time, sent_by i s' = sent_by i s ++ [(i, {| Path := path t |}, time)] ∧
   ∃ t', trackers s' !! i = Some t' ∧ pc t' = TReturned).
Proof.
  revert s t. induction tr as [|l tr IH]; intros s t Hi Hpc; simpl.
  - intros [= <-]. left. split; [done|]. by exists t.
  - destruct (step s l) as [s1|] eqn:Hs; simpl; [|done]. intros Hrun.
    destruct (step_sent_by _ _ _ i Hs) as [Heq|(u & -> & Hu & _ & _ & Heq & Hu')].
    + destruct (step_tracker_kept _ _ _ _ _ Hi Hs) as (t1 & Hi1 & Hp1 & _ & _ & Hsame).
      assert (pc t1 = TSend) as Hpc1.
      { destruct Hsame as [->|[a ->]]; [done|].
        apply step_Trk in Hs as (t0 & t0' & e & Hl & Hs & ->).
        assert (t0 = t) as -> by congruence.
        assert (t0' = t1) as ->.
        { destruct e; simpl in Hi1;
            rewrite list_lookup_insert_eq in Hi1 by (by eapply lookup_lt_Some); congruence. }
        pose proof (tracker_step_pc _ _ _ _ _ _ _ Hs) as Hflow.
        destruct a; destruct_and?; try congruence.
        exfalso. destruct e as [| |ev|].
        1,2,4: destruct t, pc0; simpl in *; try done; step_cases; done.
        unfold sent_by in Heq. simpl in Heq.
        rewrite filter_app, filter_cons_True in Heq by done.
        apply (f_equal length) in Heq. rewrite length_app in Heq. simpl in Heq. lia. }
      destruct (IH _ _ Hi1 Hpc1 Hrun) as [(E & t' & ? & ? & ?)|(time & E & t' & ? & ?)].
      * left. split; [congruence|]. exists t'. repeat split; congruence.
      * right. exists time. split; [|by exists t'].
        rewrite E, Heq, Hp1. done.
    + assert (u = t) as -> by congruence.
      destruct (returned_never_sends _ _ _ _ _ Hu' eq_refl Hrun) as (E & t' & ? & ? & _).
      right. exists (now s). split; [congruence|]. by exists t'.
Qed.

(** ** The tracker *)

(** X12: when the timer case of the select is taken, the tracker checks with
    [os.Stat] that the file exists.  If it does, the tracker goes on to send
    [FileEvent{Path: path}] on [Events]: whatever happens next, at most that one
    value is received from it, and once it is received the tracker has returned;
    while [Events] is open the send can complete.  That it does complete is not
    part of the statement: the send is not guarded by [w.done].
    If the file does not exist, the tracker logs the error and returns, and
    nothing is ever received from it: a file that is gone when its timer
    fires produces no event. *)
Theorem timer_fire_checks_existence (s : State) (i : nat) (t : tracker) :
  panicked s = false → trackers s !! i = Some t →
  (pc t = TSelect → ∀ tm v rest, timer t = Some tm → C tm = v :: rest →
     ∃ s1 t1, step s (Trk i ATimer) = Some s1 ∧ trackers s1 !! i = Some t1 ∧
       pc t1 = TStat ∧ path t1 = path t ∧ delivered s1 = delivered s) ∧
  (pc t = TStat →
     ∃ s1, step s (Trk i AStat) = Some s1 ∧ delivered s1 = delivered s ∧
       if decide (path t ∈ files s)
       then trackers s1 !! i = Some (goto TSend t) ∧ logs s1 = logs s ∧
            ∀ tr s2, run s1 tr = Some s2 →
              sent_by i s2 = sent_by i s1 ∨
              ∃ time t2,
                sent_by i s2 = sent_by i s1 ++ [(i, {| Path := path t |}, time)] ∧
                trackers s2 !! i = Some t2 ∧ pc t2 = TReturned
       else trackers s1 !! i = Some (returned t) ∧
            (∃ e, logs s1 = logs s ++ [LogErr e]) ∧
            ∀ tr s2, run s1 tr = Some s2 → sent_by i s2 = sent_by i s1) ∧
  (pc t = TSend → Events (w s) = ChOpen →
     ∃ s1, step s (Trk i ASent) = Some s1 ∧
       delivered s1 = delivered s ++ [(i, {| Path := path t |}, now s)] ∧
       trackers s1 !! i = Some (returned t)).
Proof.
  intros Halive Hi.
  assert (Hlt : (i < length (trackers s))%nat) by (by eapply lookup_lt_Some).
  split; [|split].
  - intros Hpc tm v rest Htm HC.
    unfold step. rewrite Halive, Hi. simpl.
    rewrite Hpc, Htm. simpl. unfold Timer_recv. rewrite HC. simpl.
    eexists _, _. split; [done|]. simpl.
    rewrite list_lookup_insert_eq by done. done.
  - intros Hpc. unfold step. rewrite Halive, Hi. simpl.
    rewrite Hpc. unfold os_Stat. destruct (decide (path t ∈ files s)) as [Hin|Hnot]; simpl.
    + eexists. split; [done|]. simpl. split; [done|].
      rewrite list_lookup_insert_eq by done. repeat split.
      intros tr s2 Hrun.
      eapply sending_sends_once in Hrun as [[? _]|(time & ? & t2 & ? & ?)];
        [by left| |simpl; by apply list_lookup_insert_eq|done].
      right. by exists time, t2.
    + eexists. split; [done|]. simpl. split; [done|].
      rewrite list_lookup_insert_eq by done. repeat split; [by eexists|].
      intros tr s2 Hrun.
      eapply returned_never_sends in Hrun as [? _];
        [done|simpl; by apply list_lookup_insert_eq|done].
  - intros Hpc HE. unfold step. rewrite Halive, Hi. simpl.
    rewrite Hpc, HE. simpl. eexists. split; [done|]. simpl.
    rewrite list_lookup_insert_eq by done. done.
Qed.

(** ** Failures of one tracker *)

(** The three failures of a tracker: line 115 or line 121 returns an error, or
    the file is gone at line 142. *)
Definition local_failure (s : State) (t : tracker) (a : taction) : Prop :=
  (pc t = TNewWatcher ∧ ∃ err, a = ANewWatcher (Some err)) ∨
  (pc t = TAdd ∧ ∃ err, a = AAdd (Some err)) ∨
  (pc t = TStat ∧ a = AStat ∧ path t ∉ files s).

(** The state after tracker [i] has logged [lg] and become [u]. *)
Definition logged (i : nat) (u : tracker) (lg : logentry) (s : State) : State :=
  with_logs (fun ls => ls ++ [lg]) (with_trackers (fun ts => <[i := u]> ts) s).

(** What the other goroutines see of a state: everything but the log and
    tracker [i]. *)
Definition same_for_others (i : nat) (s1 s2 : State) : Prop :=
  w s1 = w s2 ∧ now s1 = now s2 ∧ files s1 = files s2 ∧ closing s1 = closing s2 ∧
  dir s1 = dir s2 ∧ delivered s1 = delivered s2 ∧ panicked s1 = panicked s2 ∧
  length (trackers s1) = length (trackers s2) ∧
  ∀ j, j ≠ i → trackers s1 !! j = trackers s2 !! j.

Lemma same_for_others_step i s1 s2 l s1' :
  same_for_others i s1 s2 → (∀ a, l ≠ Trk i a) → step s1 l = Some s1' →
  ∃ s2', step s2 l = Some s2' ∧ same_for_others i s1' s2'.
Proof.
  intros (Hw & Hn & Hf & Hc & Hd & Hdl & Hp & Hlen & Htr) Hl Hstep.
  pose proof (step_alive _ _ _ Hstep) as Halive.
  assert (Halive2 : panicked s2 = false) by congruence.
  destruct l as [dt|p|p|e| | |a|j a].
  1-6: unfold step in *; rewrite Halive in Hstep; rewrite Halive2, <- ?Hw, <- ?Hc;
       step_cases; eexists; (split; [done|]); unfold same_for_others, close_chan; simpl;
       rewrite <- ?Hw; try (destruct (done (w s1))); simpl;
       repeat split; try done; congruence.
  - apply step_Dir in Hstep as (d & p & cl & Hs & ->).
    unfold step. rewrite Halive2, <- Hw, <- Hd, Hs. simpl. eexists. split; [done|].
    unfold same_for_others, close_chan, spawn.
    destruct cl, p; simpl; rewrite <- ?Hw; try (destruct (Events (w s1))); simpl;
      rewrite ?length_app, ?Hn; repeat split; try done; try congruence.
    all: intros j Hj; destruct (decide (j < length (trackers s1))%nat);
      [rewrite !lookup_app_l by lia; by apply Htr
      |rewrite !lookup_app_r by lia; by rewrite Hlen].
  - assert (j ≠ i) as Hji by (intros ->; by eapply Hl).
    apply step_Trk in Hstep as (t & t' & e & Hj & Hs & ->).
    unfold step. rewrite Halive2, <- (Htr _ Hji), Hj. simpl.
    rewrite <- Hw, <- Hn, <- Hf, Hs. simpl. eexists. split; [done|].
    unfold same_for_others.
    destruct e; simpl; rewrite ?length_insert; repeat split; try done; try congruence.
    all: intros k Hk; destruct (decide (k = j)) as [->|?];
      [rewrite !list_lookup_insert_eq by (try rewrite <- Hlen; by eapply lookup_lt_Some); done
      |rewrite !list_lookup_insert_ne by done; by apply Htr].
Qed.

Lemma same_for_others_run i s1 s2 tr s1' :
  same_for_others i s1 s2 → Forall (fun l => ∀ a, l ≠ Trk i a) tr →
  run s1 tr = Some s1' →
  ∃ s2', run s2 tr = Some s2' ∧ same_for_others i s1' s2'.
Proof.
  revert s1 s2. induction tr as [|l tr IH]; intros s1 s2 Hsame Hall; simpl.
  - intros [= <-]. by exists s2.
  - apply Forall_cons in Hall as [Hl Hall].
    destruct (step s1 l) as [s1a|] eqn:Hs; simpl; [|done]. intros Hrun.
    destruct (same_for_others_step _ _ _ _ _ Hsame Hl Hs) as (s2a & -> & Hsame').
    simpl. by eapply IH.
Qed.

(** C8: a tracker that cannot create its notification source, cannot register
    its path, or finds the file gone when the quiet period has elapsed, logs a
    wrapped error and returns.  Nothing is ever received from it on [Events];
    the rest of the state is untouched, the program does not panic, and every
    execution of the directory loop, of the other trackers and of the
    environment goes on as it would have. *)
Theorem per_file_failures_are_local (s : State) (i : nat) (t : tracker) (a : taction) :
  panicked s = false → trackers s !! i = Some t → local_failure s t a →
  ∃ e s',
    step s (Trk i a) = Some s' ∧
    s' = logged i (returned t) (LogErr e) s ∧ is_wrapped e = true ∧
    panicked s' = false ∧ delivered s' = delivered s ∧
    (∀ tr s2, run s' tr = Some s2 → sent_by i s2 = sent_by i s) ∧
    same_for_others i s s' ∧
    (∀ tr s2, Forall (fun l => ∀ a', l ≠ Trk i a') tr → run s tr = Some s2 →
       ∃ s2', run s' tr = Some s2' ∧ same_for_others i s2 s2').
Proof.
  intros Halive Hi Hfail.
  assert (Hlt : (i < length (trackers s))%nat) by (by eapply lookup_lt_Some).
  assert (∃ e, step s (Trk i a) = Some (logged i (returned t) (LogErr e) s) ∧
               is_wrapped e = true) as (e & Hstep & Hwr).
  { unfold step. rewrite Halive, Hi. simpl.
    destruct Hfail as [[Hpc [err ->]]|[[Hpc [err ->]]|(Hpc & -> & Hgone)]];
      simpl; rewrite Hpc.
    - by eexists.
    - by eexists.
    - unfold os_Stat. destruct (decide _); [done|]. by eexists. }
  assert (Hsame : same_for_others i s (logged i (returned t) (LogErr e) s)).
  { unfold same_for_others, logged. simpl. rewrite length_insert.
    repeat split; try done. intros j Hj. by rewrite list_lookup_insert_ne. }
  exists e, (logged i (returned t) (LogErr e) s). repeat split; try done.
  - intros tr s2 Hrun.
    assert (Hi' : trackers (logged i (returned t) (LogErr e) s) !! i = Some (returned t))
      by (simpl; by apply list_lookup_insert_eq).
    by destruct (returned_never_sends _ _ _ _ _ Hi' eq_refl Hrun) as [-> _].
  - apply Hsame.
  - apply Hsame.
  - intros tr s2 Hall Hrun. by eapply same_for_others_run.
Qed.

(** C4: on a notification the timer is re-armed by stop, drain, reset.  In
    every reachable state a tracker's timer owes at most one expiration (the
    scheduled one or one unread in [timer.C], never both).  [timer.Stop()] leads
    to the reset when it stopped the timer and to the drain when the timer had
    fired; the drain finds exactly one value and does not block; the reset then
    arms a timer with an empty channel for the full threshold from now.  The
    expiration a tracker acts on is therefore one of the timer as last armed:
    at lines 142-146 [when] has passed. *)
Theorem stop_drain_reset (s : State) (i : nat) (t : tracker) (tm : Timer) :
  reachable s → panicked s = false →
  trackers s !! i = Some t → timer t = Some tm →
  (pending tm <= 1)%nat ∧
  (pc t = TSelect → ∀ ev f, fw t = Some f → fsnotify.closed f = false →
     ∃ s1, step s (Trk i (AEvent ev)) = Some s1 ∧
           trackers s1 !! i = Some (goto TStop t)) ∧
  (pc t = TStop →
     (if active tm then C tm = [] else length (C tm) = 1%nat) ∧
     ∃ s1, step s (Trk i AStop) = Some s1 ∧
       trackers s1 !! i =
         Some (goto (if active tm then TReset else TDrain)
                 (set_timer {| when := when tm; active := false; C := C tm |} t))) ∧
  (pc t = TDrain →
     active tm = false ∧
     ∃ v s1, C tm = [v] ∧ step s (Trk i ADrain) = Some s1 ∧
       trackers s1 !! i =
         Some (goto TReset
                 (set_timer {| when := when tm; active := false; C := [] |} t))) ∧
  (pc t = TReset →
     active tm = false ∧ C tm = [] ∧
     ∃ s1, step s (Trk i AReset) = Some s1 ∧
       trackers s1 !! i =
         Some (goto TSelect
                 (set_timer {| when := now s + StableThreshold (w s);
                               active := true; C := [] |} t))) ∧
  (pc t = TStat ∨ pc t = TSend → when tm <= now s ∧ pending tm = 0%nat).
Proof.
  intros Hreach Halive Hi Htm.
  assert (Hlt : (i < length (trackers s))%nat) by (by eapply lookup_lt_Some).
  pose proof (Forall_lookup_1 _ _ _ _ (inv_trackers _ (reachable_inv _ Hreach)) Hi)
    as [_ Hinv].
  rewrite Htm in Hinv. destruct Hinv as (Hat & _ & _ & Hq).
  unfold step. rewrite Halive, Hi. simpl.
  destruct tm as [wh ac ch]. unfold pending in *. simpl in *.
  repeat split.
  - destruct (pc t), ac; simpl in *; unfold pending in *; simpl in *;
      destruct_and?; subst; simpl in *; try done; lia.
  - intros Hpc ev f Hf Hopen. rewrite Hpc, Hf. simpl. rewrite Hopen.
    destruct (decide _) as [[? _]|_]; [done|]. simpl.
    eexists. split; [done|]. simpl. by apply list_lookup_insert_eq.
  - rewrite H in Hat. simpl in Hat. unfold pending in Hat. destruct ac; simpl in *.
    + by destruct ch.
    + lia.
  - rewrite H, Htm. simpl. eexists. split; [done|]. simpl.
    by apply list_lookup_insert_eq.
  - rewrite H in Hat. simpl in Hat. by destruct Hat.
  - rewrite H in Hat. simpl in Hat. destruct Hat as [-> Hlen].
    destruct ch as [|v [|? ?]]; simpl in Hlen; try done.
    exists v. rewrite H, Htm. simpl. eexists. repeat split. simpl.
    by apply list_lookup_insert_eq.
  - rewrite H in Hat. simpl in Hat. by destruct Hat.
  - rewrite H in Hat. simpl in Hat. by destruct Hat.
  - rewrite H in Hat. simpl in Hat. destruct Hat as [-> ->].
    rewrite H, Htm. simpl. eexists. split; [done|]. simpl.
    by apply list_lookup_insert_eq.
  - destruct H as [H|H]; rewrite H in Hq; by apply Hq.
  - destruct H as [H|H]; rewrite H in Hat; simpl in Hat; destruct Hat as [-> ->]; done.
Qed.

(** ** Close *)

(** C9, as the code has it: the first [Close] releases the directory watcher
    and fires the cancellation signal, and leaves everything else as it was;
    releasing the watcher again changes nothing, but the signal can be fired
    only once: a second [Close] panics at line 108. *)
Theorem Close_once_then_panics (s : State) :
  panicked s = false → done (w s) = ChOpen →
  ∃ s1, Close s = Some s1 ∧
    panicked s1 = false ∧ done (w s1) = ChClosed ∧
    dirWatcher (w s1) = fsnotify.Close (dirWatcher (w s)) ∧
    fsnotify.Close (dirWatcher (w s1)) = dirWatcher (w s1) ∧
    Events (w s1) = Events (w s) ∧ watchDir (w s1) = watchDir (w s) ∧
    StableThreshold (w s1) = StableThreshold (w s) ∧
    (now s1, files s1, closing s1, dir s1, trackers s1, delivered s1, logs s1) =
    (now s, files s, closing s, dir s, trackers s, delivered s, logs s) ∧
    ∃ s2, Close s1 = Some s2 ∧ panicked s2 = true.
Proof.
  intros Halive Hopen. unfold Close, run, step. rewrite Halive. simpl.
  unfold close_chan. simpl. rewrite Hopen. simpl. rewrite Halive. simpl.
  eexists. split; [done|]. simpl. rewrite Halive. simpl.
  repeat split. rewrite Halive. simpl. eexists. split; done.
Qed.

(** ** The error streams *)

(** A state with the [Errors] channels of all notification sources emptied. *)
Definition forget_fw (f : fsnotify.Watcher) : fsnotify.Watcher :=
  {| fsnotify.closed := fsnotify.closed f; fsnotify.Errors := [] |}.

Definition forget_tracker (t : tracker) : tracker :=
  {| path := path t; pc := pc t; fw := forget_fw <$> fw t; timer := timer t;
     spawned := spawned t |}.

Definition forget (s : State) : State :=
  with_trackers (fmap forget_tracker) (with_w (with_dirWatcher forget_fw) s).

(** The labels by which a source announces an error. *)
Definition offers_error (l : label) : bool :=
  match l with
  | DirError _ | Trk _ (AError _) => true
  | _ => false
  end.

Lemma tracker_step_forget x now files t a t' e :
  (∀ err, a ≠ AError err) →
  tracker_step x now files t a = Some (t', e) →
  tracker_step (with_dirWatcher forget_fw x) now files (forget_tracker t) a =
  Some (forget_tracker t', e).
Proof.
  intros Ha Hstep.
  destruct a as [[?|]|[?|]| | |?| | | | | | | | |err]; destruct (pc t) eqn:Hpc;
    simpl in Hstep |- *; rewrite ?Hpc in Hstep |- *; simpl; try done.
  all: try (by destruct (Ha err)).
  all: step_cases; simpl; try done.
  all: try (by destruct t as [? ? [?|] ? ?]).
  all: try (by destruct t as [? ? [?|] [?|] ?]).
  all: repeat match goal with H : ?o = Some _ |- context [?o] => rewrite H; simpl end.
  all: try done.
  all: by destruct (decide _).
Qed.

Lemma tracker_step_AError x now files t err t' e :
  tracker_step x now files t (AError err) = Some (t', e) →
  forget_tracker t' = forget_tracker t ∧ e = Quiet ∧ pc t' = pc t ∧
  ∃ f, fw t = Some f ∧ fw t' = Some (fsnotify.offer err f) ∧
       fsnotify.closed f = false.
Proof.
  intros Hstep. destruct (pc t) eqn:Hpc; simpl in Hstep; rewrite ?Hpc in Hstep.
  all: step_cases; simpl; unfold forget_tracker; simpl;
    match goal with H : fw _ = Some _ |- _ => rewrite H end; simpl;
    repeat split; try done; by eexists.
Qed.

Lemma forget_step s l s' :
  step s l = Some s' →
  if offers_error l then forget s' = forget s
  else step (forget s) l = Some (forget s').
Proof.
  intros Hstep. pose proof (step_alive _ _ _ Hstep) as Halive.
  destruct l as [dt|p|p|e| | |a|i a].
  1-6: unfold step in *; simpl; rewrite Halive in Hstep; rewrite ?Halive;
       step_cases; try done.
  - simpl. unfold close_chan, forget. simpl. by destruct (done (w s)).
  - apply step_Dir in Hstep as (d & p & cl & Hs & ->).
    simpl. unfold step. simpl. rewrite Halive.
    assert (start_step (with_dirWatcher forget_fw (w s)) (dir s) a = Some (d, p, cl)) as ->.
    { destruct a, (dir s) as [[|? ?]| |]; simpl in *; try done. }
    simpl. f_equal. unfold close_chan, forget, spawn.
    destruct cl, p; simpl; try (destruct (Events (w s))); simpl;
      unfold with_trackers, with_w, with_dir, panic; simpl; rewrite ?fmap_app; done.
  - apply step_Trk in Hstep as (t & t' & e & Hi & Hs & ->).
    assert (Hlt : (i < length (trackers s))%nat) by (by eapply lookup_lt_Some).
    destruct (offers_error (Trk i a)) eqn:Ho.
    + destruct a; try done. apply tracker_step_AError in Hs as (Hf & -> & _).
      unfold forget, with_trackers, with_w. simpl. f_equal.
      rewrite list_fmap_insert, Hf.
      apply list_insert_id. by rewrite list_lookup_fmap, Hi.
    + unfold step. simpl. rewrite Halive, list_lookup_fmap, Hi. simpl.
      erewrite tracker_step_forget; [|by intros err ->|exact Hs]. simpl. f_equal.
      unfold forget, with_trackers, with_w, with_logs, with_delivered, panic.
      destruct e; simpl; by rewrite list_fmap_insert.
Qed.

Lemma tracker_step_forget_enabled x now files t a :
  (∀ err, a ≠ AError err) →
  is_Some (tracker_step (with_dirWatcher forget_fw x) now files (forget_tracker t) a) →
  is_Some (tracker_step x now files t a).
Proof.
  intros Ha [[t' e] Hstep].
  destruct a as [[?|]|[?|]| | |?| | | | | | | | |err]; destruct (pc t) eqn:Hpc;
    simpl in Hstep |- *; rewrite ?Hpc in Hstep |- *; simpl in *; try done.
  all: try (by destruct (Ha err)).
  all: destruct t as [? ? [f|] [tm|] ?]; simpl in *; try done.
  all: repeat match goal with
       | |- is_Some (match ?c with _ => _ end) => destruct c eqn:?; simpl in *; try done
       | |- is_Some (?o ≫= _) => destruct o as [[? ?]|] eqn:?; simpl in *; try done
       | |- is_Some (?o ≫= _) => destruct o eqn:?; simpl in *; try done
       end.
Qed.

Lemma forget_step_enabled s l :
  offers_error l = false → is_Some (step (forget s) l) → is_Some (step s l).
Proof.
  intros Ho [u Hstep]. pose proof (step_alive _ _ _ Hstep) as Halive.
  simpl in Halive.
  destruct l as [dt|p|p|e| | |a|i a]; try done.
  1-5: unfold step in *; simpl in *; rewrite Halive in Hstep |- *; step_cases; by eexists.
  - apply step_Dir in Hstep as (d & p & cl & Hs & _).
    unfold step. rewrite Halive.
    assert (start_step (w s) (dir s) a = Some (d, p, cl)) as Hs'.
    { simpl in Hs. destruct a, (dir s) as [[|? ?]| |]; simpl in *; done. }
    rewrite Hs'. by eexists.
  - apply step_Trk in Hstep as (t & t' & e & Hi & Hs & _).
    simpl in Hi. rewrite list_lookup_fmap in Hi.
    destruct (trackers s !! i) as [t0|] eqn:Hi0; [|done]. injection Hi as <-.
    destruct (tracker_step_forget_enabled (w s) (now s) (files s) t0 a) as [[t1 e1] H1].
    { intros err ->. done. }
    { by eexists. }
    unfold step. rewrite Halive, Hi0. simpl. rewrite H1. by eexists.
Qed.

(** Nothing takes an error off an [Errors] channel. *)
Definition fw_unset (t : tracker) : Prop := pc t = TNewWatcher → fw t = None.

Lemma tracker_step_Errors x now files t a t' e :
  fw_unset t → tracker_step x now files t a = Some (t', e) →
  fw_unset t' ∧
  ∀ f, fw t = Some f →
    ∃ f', fw t' = Some f' ∧ fsnotify.Errors f `prefix_of` fsnotify.Errors f'.
Proof.
  unfold fw_unset. intros Hun Hstep.
  destruct a as [[?|]|[?|]| | |?| | | | | | | | |err]; destruct (pc t) eqn:Hpc;
    simpl in Hstep; rewrite ?Hpc in Hstep; simpl in Hstep; try done.
  all: step_cases; simpl; rewrite ?Hpc;
    (split;
     [ intros Hp;
       try first [ done | by apply Hun | by destruct (active _)
             | exfalso; rewrite Hun in * by done; done ]
     | intros f0 Hf0; simpl in *; rewrite ?Hf0; simplify_eq; simpl;
       try first [ by eexists | eexists; (split; [done|]); by apply prefix_app_r ] ]).
  - rewrite Hun in Hf0; done.
  - by specialize (Hun eq_refl).
Qed.

Lemma step_Errors s l s' :
  Forall fw_unset (trackers s) → step s l = Some s' →
  Forall fw_unset (trackers s') ∧
  fsnotify.Errors (dirWatcher (w s)) `prefix_of` fsnotify.Errors (dirWatcher (w s')) ∧
  ∀ i t f, trackers s !! i = Some t → fw t = Some f →
    ∃ t' f', trackers s' !! i = Some t' ∧ fw t' = Some f' ∧
             fsnotify.Errors f `prefix_of` fsnotify.Errors f'.
Proof.
  intros Hun Hstep. pose proof (step_alive _ _ _ Hstep) as Halive.
  destruct l as [dt|p|p|e| | |a|i a].
  1-6: unfold step in Hstep; rewrite Halive in Hstep; step_cases;
       unfold close_chan; simpl; try (destruct (done (w s))); simpl;
       (split; [done|]); (split; [try done; by apply prefix_app_r|]);
       intros i t f Hi Hf; by exists t, f.
  - apply step_Dir in Hstep as (d & p & cl & Hs & ->). simpl.
    assert (Hw : ∀ u, dirWatcher (w (if cl then close_chan Events close_Events u else u)) =
                      dirWatcher (w u)).
    { intros u. unfold close_chan. destruct cl; [|done]. by destruct (Events (w u)). }
    rewrite Hw.
    assert (Ht : ∀ u, trackers (if cl then close_chan Events close_Events u else u) =
                      trackers u).
    { intros u. destruct cl; [|done]. apply close_chan_frame. }
    rewrite Ht. destruct p as [p|]; simpl.
    + split; [|split; [done|]].
      * apply Forall_app. split; [done|]. by apply Forall_singleton.
      * intros i t f Hi Hf. exists t, f. split; [by apply lookup_app_l_Some|done].
    + split; [done|]. split; [done|]. intros i t f Hi Hf. by exists t, f.
  - apply step_Trk in Hstep as (t & t' & e & Hi & Hs & ->).
    assert (Hlt : (i < length (trackers s))%nat) by (by eapply lookup_lt_Some).
    destruct (tracker_step_Errors _ _ _ _ _ _ _ (Forall_lookup_1 _ _ _ _ Hun Hi) Hs)
      as [Hun' Hgrow].
    assert (Ht : trackers (apply_effect i e (with_trackers (fun ts => <[i:=t']> ts) s)) =
                 <[i:=t']> (trackers s)) by (by destruct e).
    assert (Hw : w (apply_effect i e (with_trackers (fun ts => <[i:=t']> ts) s)) = w s)
      by (by destruct e).
    rewrite Ht, Hw. split; [by apply Forall_insert|]. split; [done|].
    intros j u f Hj Hf. destruct (decide (j = i)) as [->|Hne].
    + assert (u = t) as -> by congruence.
      destruct (Hgrow _ Hf) as (f' & ? & ?). exists t', f'.
      by rewrite list_lookup_insert_eq.
    + exists u, f. by rewrite list_lookup_insert_ne.
Qed.

Lemma run_Errors s tr s' :
  Forall fw_unset (trackers s) → run s tr = Some s' →
  Forall fw_unset (trackers s') ∧
  fsnotify.Errors (dirWatcher (w s)) `prefix_of` fsnotify.Errors (dirWatcher (w s')) ∧
  ∀ i t f, trackers s !! i = Some t → fw t = Some f →
    ∃ t' f', trackers s' !! i = Some t' ∧ fw t' = Some f' ∧
             fsnotify.Errors f `prefix_of` fsnotify.Errors f'.
Proof.
  revert s. induction tr as [|l tr IH]; intros s Hun; simpl.
  - intros [= <-]. split; [done|]. split; [done|]. intros i t f ? ?. by exists t, f.
  - destruct (step s l) as [s1|] eqn:Hs; simpl; [|done]. intros Hrun.
    destruct (step_Errors _ _ _ Hun Hs) as (Hun1 & Hd1 & Ht1).
    destruct (IH _ Hun1 Hrun) as (Hun2 & Hd2 & Ht2).
    split; [done|]. split; [by etrans|].
    intros i t f Hi Hf. destruct (Ht1 _ _ _ Hi Hf) as (t1 & f1 & Hi1 & Hf1 & Hp1).
    destruct (Ht2 _ _ _ Hi1 Hf1) as (t2 & f2 & ? & ? & ?).
    exists t2, f2. repeat split; try done. by etrans.
Qed.

Lemma reachable_fw_unset s : reachable s → Forall fw_unset (trackers s).
Proof.
  intros (os & dirp & d & s0 & tr & H0 & Hrun).
  apply NewStableFileWatcher_Some in H0 as (_ & _ & _ & items & _ & ->).
  eapply run_Errors; [|exact Hrun]. simpl. apply Forall_nil_2.
Qed.

Lemma forget_run s tr s' :
  run s tr = Some s' →
  run (forget s) (filter (fun l => offers_error l = false) tr) = Some (forget s').
Proof.
  revert s. induction tr as [|l tr IH]; intros s; simpl.
  - by intros [= <-].
  - destruct (step s l) as [s1|] eqn:Hs; simpl; [|done]. intros Hrun.
    apply forget_step in Hs. rewrite filter_cons.
    destruct (decide (offers_error l = false)) as [Ho|Ho].
    + rewrite Ho in Hs. simpl. rewrite Hs. simpl. by apply IH.
    + apply not_false_is_true in Ho. rewrite Ho in Hs. rewrite <- Hs. by apply IH.
Qed.

Lemma forget_run_enabled s tr u :
  Forall (fun l => offers_error l = false) tr →
  run (forget s) tr = Some u →
  ∃ s', run s tr = Some s' ∧ forget s' = u.
Proof.
  revert s. induction tr as [|l tr IH]; intros s Hall; simpl.
  - intros [= <-]. by exists s.
  - apply Forall_cons in Hall as [Hl Hall].
    destruct (step (forget s) l) as [u1|] eqn:Hu; simpl; [|done]. intros Hrun.
    destruct (forget_step_enabled s l Hl) as [s1 Hs]; [by eexists|].
    pose proof (forget_step _ _ _ Hs) as Hf. rewrite Hl in Hf.
    assert (u1 = forget s1) as -> by congruence.
    rewrite Hs. simpl. by apply IH.
Qed.

(** C10: no goroutine receives from an [Errors] channel.  In every execution
    the errors a source announces only pile up on its channel; they decide
    nothing: taking the announcements out of the execution and emptying the
    channels leaves an execution of the program with the same program points,
    events, log, flags and panics; and whatever the program can do with the
    channels empty it can do, with the same outcome, with errors waiting. *)
Theorem errors_are_never_consumed (s : State) (tr : list label) (s' : State) :
  reachable s → run s tr = Some s' →
  run (forget s) (filter (fun l => offers_error l = false) tr) = Some (forget s') ∧
  fsnotify.Errors (dirWatcher (w s)) `prefix_of` fsnotify.Errors (dirWatcher (w s')) ∧
  (∀ i t f, trackers s !! i = Some t → fw t = Some f →
     ∃ t' f', trackers s' !! i = Some t' ∧ fw t' = Some f' ∧
              fsnotify.Errors f `prefix_of` fsnotify.Errors f') ∧
  (∀ tr' u, Forall (fun l => offers_error l = false) tr' →
     run (forget s') tr' = Some u → ∃ s2, run s' tr' = Some s2 ∧ forget s2 = u).
Proof.
  intros Hreach Hrun.
  destruct (run_Errors _ _ _ (reachable_fw_unset _ Hreach) Hrun) as (_ & Hd & Ht).
  split; [by apply forget_run|]. split; [done|]. split; [done|].
  intros tr' u. apply forget_run_enabled.
Qed.

(** ** Files present at startup *)

Lemma step_DoRange_nil s :
  dir s = DRange [] → panicked s = false →
  step s (Dir DoRange) = Some (with_dir DSelect s).
Proof. intros Hd Halive. unfold step. rewrite Halive. simpl. by rewrite Hd. Qed.

Lemma step_DoRange_cons s f rest :
  dir s = DRange (f :: rest) → panicked s = false →
  step s (Dir DoRange) =
  Some (spawn (Some (filepath_Join (watchDir (w s)) (fi_Name f)))
          (with_dir (DRange rest) s)).
Proof. intros Hd Halive. unfold step. rewrite Halive. simpl. by rewrite Hd. Qed.

(** The loop of lines 87-90, run without interruption. *)
Lemma run_range s files :
  dir s = DRange files → panicked s = false →
  ∃ s1, run s (replicate (S (length files)) (Dir DoRange)) = Some s1 ∧
    dir s1 = DSelect ∧ panicked s1 = false ∧ now s1 = now s ∧ w s1 = w s ∧
    trackers s1 = trackers s ++
      ((fun f => waitUntilFileIsStable (filepath_Join (watchDir (w s)) (fi_Name f)) (now s))
         <$> files).
Proof.
  revert s. induction files as [|f files IH]; intros s Hd Halive.
  - cbn [length replicate run]. rewrite (step_DoRange_nil _ Hd Halive). simpl.
    eexists. split; [done|]. simpl. by rewrite app_nil_r.
  - cbn [length replicate run]. rewrite (step_DoRange_cons _ _ _ Hd Halive).
    cbn [mbind option_bind].
    edestruct (IH (spawn (Some (filepath_Join (watchDir (w s)) (fi_Name f)))
                     (with_dir (DRange files) s)))
      as (s1 & Hrun & ? & ? & Hn & Hw & Ht); [done..|].
    exists s1. split; [exact Hrun|]. repeat split; try done.
    rewrite Ht. simpl. by rewrite <- app_assoc.
Qed.

(** How far the loop of lines 87-90 has got: [k] of the [files] have been
    visited, and the first [k] trackers are theirs. *)
Definition started_upto (dirp : string) (files : list FileInfo) (s : State) : Prop :=
  watchDir (w s) = dirp ∧
  ∃ k, (k <= length files)%nat ∧ (k <= length (trackers s))%nat ∧
    path <$> take k (trackers s) =
      (fun f => filepath_Join dirp (fi_Name f)) <$> take k files ∧
    match dir s with
    | DRange rest => rest = drop k files ∧ length (trackers s) = k
    | _ => k = length files
    end.

Lemma started_upto_step dirp files s l s' :
  started_upto dirp files s → step s l = Some s' → started_upto dirp files s'.
Proof.
  intros (Hw & k & Hk & Hkt & Hp & Hd) Hstep.
  pose proof (step_alive _ _ _ Hstep) as Halive.
  destruct l as [dt|p|p|e| | |a|i a].
  1-6: unfold step in Hstep; rewrite Halive in Hstep; step_cases;
       unfold started_upto, close_chan; simpl; try (destruct (done (w s))); simpl;
       (split; [done|]); by exists k.
  - apply step_Dir in Hstep as (d & p & cl & Hs & ->).
    destruct a as [| |ev]; destruct (dir s) as [[|f rest]| |] eqn:Hdir;
      simpl in Hs; try done; step_cases; simpl.
    + split; [done|]. exists k. destruct Hd as [Hd Hlen].
      repeat split; try done.
      simpl. symmetry in Hd. apply drop_nil_inv in Hd. lia.
    + destruct Hd as [Hd Hlen]. split; [done|].
      assert (files !! k = Some f) as Hf.
      { rewrite <- (Nat.add_0_r k), <- lookup_drop, <- Hd. done. }
      assert (k < length files)%nat by (by eapply lookup_lt_Some).
      exists (S k). simpl. rewrite length_app. simpl. repeat split; try lia.
      * rewrite take_ge by (rewrite length_app; simpl; lia).
        rewrite fmap_app. rewrite (take_S_r _ _ _ Hf), fmap_app. simpl.
        by rewrite <- Hp, take_ge by lia.
      * rewrite (drop_S _ _ _ Hf) in Hd. by injection Hd.
    + unfold close_chan. simpl. destruct (Events (w s)); simpl;
        (split; [done|]); by exists (length files).
    + destruct (is_create ev); simpl; (split; [done|]); exists (length files);
        simpl; rewrite ?length_app; repeat split; try done; try lia.
      by rewrite take_app_le.
  - apply step_Trk in Hstep as (t & t' & e & Hi & Hs & ->).
    destruct (tracker_step_same _ _ _ _ _ _ _ Hs) as [Hpath _].
    assert (Hsame : path <$> <[i:=t']> (trackers s) = path <$> trackers s).
    { rewrite list_fmap_insert. apply list_insert_id.
      by rewrite list_lookup_fmap, Hi, Hpath. }
    assert (started_upto dirp files (with_trackers (fun ts => <[i:=t']> ts) s)) as H.
    { split; [done|]. exists k. simpl. rewrite length_insert.
      repeat split; try done.
      by rewrite fmap_take, Hsame, <- fmap_take. }
    by destruct e.
Qed.

Lemma started_upto_run dirp files s tr s' :
  started_upto dirp files s → run s tr = Some s' → started_upto dirp files s'.
Proof.
  revert s. induction tr as [|l tr IH]; intros s Hinv; simpl.
  - by intros [= <-].
  - destruct (step s l) as [s1|] eqn:Hs; simpl; [|done].
    apply IH. by eapply started_upto_step.
Qed.

(** C6: the program a successful constructor call starts visits every entry
    of the directory listing that is not a directory, in order, and starts one
    tracker for each, on [filepath.Join(watchDir, name)]; directories get none.
    The tracker is a call of [waitUntilFileIsStable] from its first line, the
    same goroutine a create notification starts.  The loop of lines 87-90 runs
    to its end when left alone, and however the execution is interleaved the
    trackers started by it are the first ones, one per entry visited. *)
Theorem preexisting_files_are_tracked
    (os : Env) (dirp : string) (d : Z) (s0 : State) :
  NewStableFileWatcher os dirp d = (Some s0, None) →
  ∃ items, env_ReadDir os dirp = inl items ∧
    let files := filter (fun item => fi_IsDir item = false) items in
    let on := fun f => filepath_Join dirp (fi_Name f) in
    dir s0 = DRange files ∧ trackers s0 = [] ∧
    (∃ s1, run s0 (replicate (S (length files)) (Dir DoRange)) = Some s1 ∧
       dir s1 = DSelect ∧
       trackers s1 = (fun f => waitUntilFileIsStable (on f) (env_now os)) <$> files) ∧
    (∀ tr s, run s0 tr = Some s →
       ∃ k, (k <= length files)%nat ∧ (k <= length (trackers s))%nat ∧
         path <$> take k (trackers s) = on <$> take k files ∧
         match dir s with
         | DRange rest => rest = drop k files ∧ length (trackers s) = k
         | _ => k = length files
         end).
Proof.
  intros H. apply NewStableFileWatcher_Some in H as (_ & _ & _ & items & Hrd & Hs0).
  set (files := filter (fun item => fi_IsDir item = false) items) in *.
  assert (Hdir : dir s0 = DRange files) by (by subst s0).
  assert (Htr : trackers s0 = []) by (by subst s0).
  assert (Halive : panicked s0 = false) by (by subst s0).
  assert (Hwd : watchDir (w s0) = dirp) by (by subst s0).
  assert (Hnow : now s0 = env_now os) by (by subst s0).
  clear Hs0. exists items. split; [done|]. cbv zeta. fold files.
  split; [done|]. split; [done|]. split.
  - destruct (run_range s0 files Hdir Halive) as (s1 & Hrun & Hd & _ & _ & _ & Ht).
    exists s1. split; [done|]. split; [done|]. by rewrite Ht, Htr, Hwd, Hnow.
  - intros tr s Hrun.
    eapply started_upto_run in Hrun as [_ Hk]; [exact Hk|].
    split; [done|]. exists 0%nat. rewrite Hdir, Htr. simpl. repeat split; try done; lia.
Qed.

(** ** At most one event per tracker *)

Lemma sent_by_nil i s : i ∉ senders s → sent_by i s = [].
Proof.
  unfold senders, sent_by. induction (delivered s) as [|d l IH]; [done|].
  rewrite fmap_cons, not_elem_of_cons. intros [Hne Hnot].
  rewrite filter_cons. destruct (decide (d.1.1 = i)); [congruence|]. by apply IH.
Qed.

Lemma sent_by_senders i s d : d ∈ sent_by i s → d ∈ delivered s ∧ d.1.1 = i.
Proof. unfold sent_by. rewrite list_elem_of_filter. tauto. Qed.

Lemma senders_sent_by i s : i ∈ senders s → ∃ d, d ∈ sent_by i s.
Proof.
  unfold senders, sent_by. intros Hin.
  apply list_elem_of_fmap in Hin as (d & -> & Hd).
  exists d. by apply list_elem_of_filter.
Qed.

Lemma sent_by_once i s : NoDup (senders s) → (length (sent_by i s) <= 1)%nat.
Proof.
  unfold senders. intros Hnd.
  assert (∀ l, NoDup ((fun d : nat * FileEvent * Z => d.1.1) <$> l) →
               (length (filter (fun d : nat * FileEvent * Z => d.1.1 = i) l) <= 1)%nat) as H.
  { induction l as [|d l IH]; [simpl; lia|].
    rewrite fmap_cons, NoDup_cons. intros [Hnot Hl].
    rewrite filter_cons. destruct (decide (d.1.1 = i)) as [<-|]; [|by apply IH].
    simpl.
    assert (filter (fun d0 : nat * FileEvent * Z => d0.1.1 = d.1.1) l = []) as ->; [|simpl; lia].
    clear IH Hl. induction l as [|d' l IH]; [done|].
    rewrite fmap_cons, not_elem_of_cons in Hnot. destruct Hnot as [Hne Hnot].
    rewrite filter_cons. destruct (decide (d'.1.1 = d.1.1)); [congruence|]. by apply IH. }
  by apply H.
Qed.

(** ** A file that is created and left alone *)

(** The labels of an execution that leaves the file [p] of tracker [i] alone:
    the subscription of the tracker succeeds, no change of the file is
    notified to it, the file is not removed, and nobody cancels. *)
Definition undisturbed (i : nat) (p : string) (l : label) : Prop :=
  match l with
  | Trk j (AEvent _) | Trk j (ANewWatcher (Some _)) | Trk j (AAdd (Some _)) => j ≠ i
  | CloseDone => False
  | FsRemove q => q ≠ p
  | _ => True
  end.

Record quiet_inv (i : nat) (p : string) (sp : Z) (s : State) : Prop := {
  q_done : done (w s) = ChOpen;
  q_file : p ∈ files s;
  q_tracker : ∃ t, trackers s !! i = Some t ∧ path t = p ∧ spawned t = sp ∧
    (pc t ≠ TStop ∧ pc t ≠ TDrain ∧ pc t ≠ TReset) ∧
    (pc t = TReturned → i ∈ senders s)
}.

Lemma step_senders_mono s l s' i :
  step s l = Some s' → i ∈ senders s → i ∈ senders s'.
Proof.
  intros Hstep. unfold senders.
  destruct (step_delivered _ _ _ Hstep) as [->|(j & t & _ & _ & _ & _ & -> & _)]; [done|].
  rewrite fmap_app, elem_of_app. by left.
Qed.

Lemma quiet_inv_step i p sp s l s' :
  quiet_inv i p sp s → undisturbed i p l → step s l = Some s' →
  quiet_inv i p sp s'.
Proof.
  intros [Hdone Hfile (t & Hi & Hp & Hsp & Hpc & Hret)] Hl Hstep.
  pose proof (step_senders_mono _ _ _ i Hstep) as Hmono.
  pose proof (step_alive _ _ _ Hstep) as Halive.
  destruct l as [dt|q|q|e| | |a|j a]; try done.
  1-5: unfold step in Hstep; rewrite Halive in Hstep; step_cases;
       (constructor; simpl; [done|try done|by exists t]).
  - apply elem_of_union. by right.
  - simpl in Hl. apply elem_of_difference. split; [done|].
    rewrite elem_of_singleton. congruence.
  - apply step_Dir in Hstep as (d & q & cl & Hs & ->).
    assert (∀ u, done (w (if cl then close_chan Events close_Events u else u)) = done (w u)
               ∧ files (if cl then close_chan Events close_Events u else u) = files u
               ∧ trackers (if cl then close_chan Events close_Events u else u) = trackers u)
      as Hfr.
    { intros u. destruct cl; [|done]. unfold close_chan. by destruct (Events (w u)). }
    constructor.
    + rewrite (proj1 (Hfr _)). by destruct q.
    + rewrite (proj1 (proj2 (Hfr _))). by destruct q.
    + exists t. rewrite (proj2 (proj2 (Hfr _))).
      repeat split; try done; try tauto.
      destruct q; simpl; [by apply lookup_app_l_Some|done].
  - apply step_Trk in Hstep as (u & u' & e & Hj & Hs & Hs').
    assert (Hfr : done (w s') = done (w s) ∧ files s' = files s ∧
                  trackers s' = <[j:=u']> (trackers s)) by (subst s'; by destruct e).
    destruct Hfr as (Hd' & Hf' & Ht').
    constructor; [congruence|congruence|]. rewrite Ht'.
    destruct (decide (j = i)) as [->|Hne].
    + assert (u = t) as -> by congruence.
      exists u'. rewrite list_lookup_insert_eq by (by eapply lookup_lt_Some).
      destruct (tracker_step_same _ _ _ _ _ _ _ Hs) as [Hp' Hsp'].
      split; [done|]. split; [congruence|]. split; [congruence|].
      pose proof (tracker_step_pc _ _ _ _ _ _ _ Hs) as Hflow.
      destruct a as [[?|]|[?|]| | |?| | | | | | | | |?]; simpl in Hl; try done;
        destruct_and?; split; try (repeat split; congruence).
      all: try (intros Hr; apply Hmono, Hret; congruence).
      * rewrite H0, Hp. destruct (decide (p ∈ files s)); repeat split; done.
      * rewrite H0, Hp. destruct (decide (p ∈ files s)) as [_|Hn]; [done|by destruct Hn].
      * intros _. simpl in Hs. rewrite H in Hs. step_cases.
        unfold senders. simpl. rewrite fmap_app, elem_of_app. right.
        apply list_elem_of_here.
    + exists t. rewrite list_lookup_insert_ne by done.
      repeat split; try done; try tauto.
Qed.

Lemma step_Trk_intro s i t a t' e :
  panicked s = false → trackers s !! i = Some t →
  tracker_step (w s) (now s) (files s) t a = Some (t', e) →
  ∃ s1, step s (Trk i a) = Some s1 ∧ trackers s1 !! i = Some t' ∧ now s1 = now s.
Proof.
  intros Halive Hi Hs. unfold step. rewrite Halive, Hi. simpl. rewrite Hs. simpl.
  eexists. split; [done|].
  assert (Hlt : (i < length (trackers s))%nat) by (by eapply lookup_lt_Some).
  destruct e; simpl; by rewrite list_lookup_insert_eq.
Qed.

(** How far a tracker that is left alone is from its return. *)
Definition rank (now : Z) (t : tracker) : nat :=
  match pc t with
  | TNewWatcher => 8
  | TAdd => 7
  | TNewTimer => 6
  | TSelect =>
      match timer t with
      | Some tm => if active tm then (if when tm <=? now then 4 else 5) else 3
      | None => 0
      end
  | TStat => 2
  | TSend => 1
  | _ => 0
  end.

Lemma quiet_progress i p sp s t :
  inv s → panicked s = false → quiet_inv i p sp s →
  trackers s !! i = Some t → pc t ≠ TReturned →
  ∃ l s1 t1, undisturbed i p l ∧ step s l = Some s1 ∧
    trackers s1 !! i = Some t1 ∧ (rank (now s1) t1 < rank (now s) t)%nat.
Proof.
  intros Hinv Halive [Hdone Hfile (t0 & Hi0 & Hp & Hsp & (H1 & H2 & H3) & _)] Hi Hret.
  assert (t0 = t) as -> by congruence. clear Hi0.
  pose proof (Forall_lookup_1 _ _ _ _ (inv_trackers _ Hinv) Hi) as [_ Hti].
  assert (HE : Events (w s) = ChOpen).
  { destruct (Events (w s)) eqn:HE; [done|].
    apply (inv_Events _ Hinv) in HE. apply (inv_dir _ Hinv) in HE. congruence. }
  unfold rank.
  destruct (pc t) eqn:Hpc; try done.
  - edestruct (step_Trk_intro s i t (ANewWatcher None)) as (s1 & Hs & Ht & _);
      [done|done|by simpl; rewrite Hpc|].
    eexists _, s1, _. repeat split; [|exact Hs|exact Ht|]; [done|]. simpl. lia.
  - edestruct (step_Trk_intro s i t (AAdd None)) as (s1 & Hs & Ht & _);
      [done|done|by simpl; rewrite Hpc|].
    eexists _, s1, _. repeat split; [|exact Hs|exact Ht|]; [done|]. simpl. lia.
  - edestruct (step_Trk_intro s i t ANewTimer) as (s1 & Hs & Ht & _);
      [done|done|by simpl; rewrite Hpc|].
    eexists _, s1, _. repeat split; [|exact Hs|exact Ht|]; [done|]. simpl.
    destruct (_ <=? _); lia.
  - destruct (timer t) as [[wh ac ch]|] eqn:Htm; [|done].
    destruct Hti as (Hat & _). unfold pending in Hat. simpl in *.
    destruct ac; simpl in *.
    + assert (ch = []) as -> by (by destruct ch).
      destruct (Z.leb_spec wh (now s)) as [Hle|Hlt].
      * edestruct (step_Trk_intro s i t AFire) as (s1 & Hs & Ht & _); [done|done| |].
        { simpl. rewrite ?Hpc, Htm. unfold Timer_fire. simpl.
          destruct (Z.leb_spec wh (now s)); [done|lia]. }
        eexists _, s1, _. repeat split; [|exact Hs|exact Ht|]; [done|]. simpl.
        rewrite ?Hpc. simpl. lia.
      * exists (Tick (wh - now s)), (with_now (fun n => n + (wh - now s)) s), t.
        repeat split.
        -- unfold step. rewrite Halive. destruct (decide _); [done|lia].
        -- done.
        -- simpl. unfold rank. rewrite Hpc, Htm. simpl.
           replace (now s + (wh - now s)) with wh by lia. rewrite Z.leb_refl. simpl. lia.
    + destruct ch as [|v ch]; [unfold pending in Hat; simpl in Hat; lia|].
      edestruct (step_Trk_intro s i t ATimer) as (s1 & Hs & Ht & _); [done|done| |].
      { simpl. rewrite Hpc, Htm. unfold Timer_recv. simpl. done. }
      eexists _, s1, _. repeat split; [|exact Hs|exact Ht|]; [done|]. simpl. lia.
  - edestruct (step_Trk_intro s i t AStat) as (s1 & Hs & Ht & _); [done|done| |].
    { simpl. rewrite Hpc. unfold os_Stat. rewrite Hp.
      destruct (decide (p ∈ files s)); [done|done]. }
    eexists _, s1, _. repeat split; [|exact Hs|exact Ht|]; [done|]. simpl. lia.
  - edestruct (step_Trk_intro s i t ASent) as (s1 & Hs & Ht & _); [done|done| |].
    { simpl. rewrite Hpc, HE. done. }
    eexists _, s1, _. repeat split; [|exact Hs|exact Ht|]; [done|]. simpl. lia.
Qed.

Lemma quiet_inv_run i p sp s tr s' :
  quiet_inv i p sp s → Forall (undisturbed i p) tr → run s tr = Some s' →
  quiet_inv i p sp s'.
Proof.
  revert s. induction tr as [|l tr IH]; intros s Hq Hall; simpl.
  - by intros [= <-].
  - apply Forall_cons in Hall as [Hl Hall].
    destruct (step s l) as [s1|] eqn:Hs; simpl; [|done].
    apply IH; [|done]. by eapply quiet_inv_step.
Qed.

(** A tracker that is left alone can always be brought to its return. *)
Lemma quiet_completion i p sp n :
  ∀ s t, reachable s → quiet_inv i p sp s → trackers s !! i = Some t →
    (rank (now s) t <= n)%nat →
    ∃ tr s' t', Forall (undisturbed i p) tr ∧ run s tr = Some s' ∧
      trackers s' !! i = Some t' ∧ pc t' = TReturned.
Proof.
  induction n as [|n IH]; intros s t Hreach Hq Hi Hrank.
  - destruct (decide (pc t = TReturned)) as [Hr|Hr].
    + exists [], s, t. by repeat split.
    + exfalso. pose proof (reachable_inv _ Hreach) as Hinv.
      assert (panicked s = false) as Halive.
      { destruct (panicked s) eqn:Hp; [|done].
        apply (inv_panicked _ Hinv) in Hp. rewrite (q_done _ _ _ _ Hq) in Hp. done. }
      destruct (quiet_progress _ _ _ _ _ Hinv Halive Hq Hi Hr) as (? & ? & ? & _ & _ & _ & ?).
      lia.
  - destruct (decide (pc t = TReturned)) as [Hr|Hr].
    + exists [], s, t. by repeat split.
    + pose proof (reachable_inv _ Hreach) as Hinv.
      assert (panicked s = false) as Halive.
      { destruct (panicked s) eqn:Hp; [|done].
        apply (inv_panicked _ Hinv) in Hp. rewrite (q_done _ _ _ _ Hq) in Hp. done. }
      destruct (quiet_progress _ _ _ _ _ Hinv Halive Hq Hi Hr)
        as (l & s1 & t1 & Hl & Hs & Hi1 & Hlt).
      destruct (IH s1 t1) as (tr & s' & t' & Hall & Hrun & Hi' & Hr').
      { by eapply reachable_step. }
      { by eapply quiet_inv_step. }
      { done. }
      { lia. }
      exists (l :: tr), s', t'. repeat split; try done.
      * by apply Forall_cons.
      * simpl. by rewrite Hs.
Qed.

(** C2: at most one value is ever received from a tracker, and it carries the
    tracker's path and is received no earlier than the threshold after the
    tracker was started.  When the file is left alone (the subscription
    succeeds, no change is notified, the file stays, nobody cancels), a tracker
    that has returned has had exactly one event received from it, a tracker
    that has not has had none yet, and it can always be brought to its
    return. *)
Theorem one_event_per_tracker (s : State) (i : nat) (t : tracker) :
  reachable s → trackers s !! i = Some t →
  ((length (sent_by i s) <= 1)%nat ∧
   ∀ d, d ∈ sent_by i s →
     d.1 = (i, {| Path := path t |}) ∧ pc t = TReturned ∧
     spawned t + StableThreshold (w s) <= d.2 <= now s) ∧
  (pc t = TNewWatcher → path t ∈ files s → done (w s) = ChOpen →
   ∀ tr s', Forall (undisturbed i (path t)) tr → run s tr = Some s' →
     ∃ t', trackers s' !! i = Some t' ∧
       (pc t' = TReturned →
          ∃ time, sent_by i s' = [(i, {| Path := path t |}, time)] ∧
                  spawned t + StableThreshold (w s) <= time) ∧
       (pc t' ≠ TReturned →
          sent_by i s' = [] ∧
          ∃ tr' s'' t'', Forall (undisturbed i (path t)) tr' ∧
            run s' tr' = Some s'' ∧ trackers s'' !! i = Some t'' ∧
            pc t'' = TReturned)).
Proof.
  intros Hreach Hi.
  assert (Hsafe : ∀ u j v, reachable u → trackers u !! j = Some v →
    (length (sent_by j u) <= 1)%nat ∧
    ∀ d, d ∈ sent_by j u →
      d.1 = (j, {| Path := path v |}) ∧ pc v = TReturned ∧
      spawned v + StableThreshold (w u) <= d.2 <= now u).
  { intros u j v Hu Hj. pose proof (reachable_inv _ Hu) as Hinv. split.
    - apply sent_by_once, (inv_once _ Hinv).
    - intros [[j' ev] time] Hd. apply sent_by_senders in Hd as [Hd Hj']. simpl in Hj'.
      subst j'. destruct (inv_delivered _ Hinv _ _ _ Hd) as (v' & Hv' & ? & -> & ?).
      assert (v' = v) as -> by congruence. done. }
  split; [by apply Hsafe|].
  intros Hpc Hfile Hdone tr s' Hall Hrun.
  assert (Hq : quiet_inv i (path t) (spawned t) s).
  { constructor; [done|done|]. exists t. rewrite Hpc. by repeat split. }
  pose proof (quiet_inv_run _ _ _ _ _ _ Hq Hall Hrun) as Hq'.
  pose proof (reachable_run _ _ _ Hreach Hrun) as Hreach'.
  destruct (q_tracker _ _ _ _ Hq') as (t' & Hi' & Hp' & Hsp' & _ & Hsent).
  destruct (Hsafe _ _ _ Hreach' Hi') as [Hlen Hshape].
  assert (Hthr : StableThreshold (w s') = StableThreshold (w s)).
  { clear -Hrun. revert s Hrun. induction tr as [|l tr IH]; intros s; simpl.
    - by intros [= <-].
    - destruct (step s l) as [s1|] eqn:Hs; simpl; [|done]. intros Hrun.
      rewrite (IH _ Hrun). clear -Hs.
      pose proof (step_alive _ _ _ Hs) as Halive.
      destruct l as [dt|p|p|e| | |a|i a].
      1-6: unfold step in Hs; rewrite Halive in Hs; step_cases; try done;
           unfold close_chan; simpl; by destruct (done (w s)).
      + apply step_Dir in Hs as (d & p & cl & _ & ->). simpl.
        unfold close_chan. destruct cl, p; simpl; try done;
          by destruct (Events (w s)).
      + apply step_Trk in Hs as (t & t' & e & _ & _ & ->). by destruct e. }
  exists t'. split; [done|]. split.
  - intros Hr. destruct (senders_sent_by _ _ (Hsent Hr)) as [d Hd].
    destruct (Hshape _ Hd) as (Hd1 & _ & Hd2 & _).
    destruct (sent_by i s') as [|d' [|d'' l]] eqn:Hsb; simpl in Hlen; try lia.
    + by apply not_elem_of_nil in Hd.
    + apply list_elem_of_singleton in Hd as ->.
      destruct d' as [[j ev] time]. simpl in *. injection Hd1 as -> ->.
      exists time. rewrite Hp'. split; [done|]. rewrite <- Hsp', <- Hthr. done.
  - intros Hr. split.
    + destruct (sent_by i s') as [|d l] eqn:Hsb; [done|].
      destruct (Hshape d) as (_ & ? & _); [apply list_elem_of_here|done].
    + rewrite <- Hp'.
      destruct (quiet_completion i (path t') (spawned t) (rank (now s') t') s' t' Hreach')
        as (tr' & s'' & t'' & ? & ? & ? & ?); [by rewrite Hp'|done|done|].
      by exists tr', s'', t''.
Qed.

(** ** Cancellation *)

(** X1: A notification that [start] receives once the cancellation signal has
    fired starts no tracker: [Close] has closed the directory watcher before
    it closed [w.done], so what the loop receives from then on is the zero
    value of the closed channel, whose operation has no create bit.  This is
    about the notification received after the signal; for one received before
    it, see [start_step]. *)
Lemma cancellation_stops_discovery (s : State) (ev : fsnotify.Event) (s' : State) :
  reachable s → done (w s) = ChClosed → dir s = DSelect →
  step s (Dir (DoEvent ev)) = Some s' →
  ev = fsnotify.zero ∧ is_create ev = false ∧
  trackers s' = trackers s ∧ dir s' = DSelect.
Proof.
  intros Hreach Hdone Hdir Hstep.
  pose proof (inv_done _ (reachable_inv _ Hreach) Hdone) as Hclosed.
  apply step_Dir in Hstep as (d & p & cl & Hs & ->).
  rewrite Hdir in Hs. simpl in Hs.
  destruct (decide (fsnotify.closed (dirWatcher (w s)) = true ∧ ev ≠ fsnotify.zero))
    as [|Hn]; [done|].
  assert (ev = fsnotify.zero) as ->.
  { destruct (decide (ev = fsnotify.zero)) as [|Hne]; [done|]. exfalso. tauto. }
  simpl in Hs. injection Hs as <- <- <-. done.
Qed.

(** X2: [Events] is closed by the directory loop only, when it takes the
    cancellation case, and it is closed once: the loop has returned then, and
    a closed [Events] stays closed without a second close being attempted. *)
Lemma Events_closed_once (s : State) (l : label) (s' : State) :
  reachable s → step s l = Some s' →
  (Events (w s) = ChOpen → Events (w s') = ChClosed →
     l = Dir DoDone ∧ done (w s) = ChClosed ∧ dir s = DSelect ∧
     dir s' = DReturned ∧ panicked s' = false) ∧
  (Events (w s) = ChClosed →
     Events (w s') = ChClosed ∧ dir s' = DReturned ∧ ∀ a, l ≠ Dir a).
Proof.
  intros Hreach Hstep. pose proof (reachable_inv _ Hreach) as Hinv.
  pose proof (step_alive _ _ _ Hstep) as Halive.
  destruct l as [dt|p|p|e| | |a|i a].
  1-6: unfold step in Hstep; rewrite Halive in Hstep; step_cases;
       unfold close_chan; simpl; try (destruct (done (w s))); simpl;
       (split; [congruence|]); intros HE; (split; [done|]);
       (split; [by apply (inv_Events _ Hinv)|done]).
  - apply step_Dir in Hstep as (d & p & cl & Hs & ->).
    destruct a as [| |ev]; destruct (dir s) as [[|f rest]| |] eqn:Hdir;
      simpl in Hs; try done; step_cases; simpl;
      unfold close_chan; simpl; try (destruct (Events (w s)) eqn:HE); simpl.
    all: split; try congruence; try done.
    all: try (intros HE'; apply (inv_Events _ Hinv) in HE'; congruence).
    all: try (exfalso; apply (inv_Events _ Hinv) in HE; congruence).
    intros _. destruct (is_create ev); simpl; congruence.
  - apply step_Trk in Hstep as (t & t' & e & _ & _ & ->).
    assert (Hfr : Events (w (apply_effect i e (with_trackers (fun ts => <[i:=t']> ts) s)))
                  = Events (w s) ∧
                  dir (apply_effect i e (with_trackers (fun ts => <[i:=t']> ts) s)) = dir s)
      by (by destruct e).
    destruct Hfr as [-> ->]. split; [congruence|].
    intros HE. split; [done|]. split; [by apply (inv_Events _ Hinv)|done].
Qed.

(** ** Resources of a tracker *)

(** The tracker's own notification source at each program point: not yet
    created on the first line, closed once the function has returned (the
    deferred [fw.Close()]), open in between. *)
Definition fw_at (t : tracker) : Prop :=
  match pc t with
  | TNewWatcher => fw t = None
  | TReturned => ∀ f, fw t = Some f → fsnotify.closed f = true
  | _ => ∃ f, fw t = Some f ∧ fsnotify.closed f = false
  end.

Lemma tracker_step_fw_at x now files t a t' e :
  fw_at t → tracker_step x now files t a = Some (t', e) → fw_at t'.
Proof.
  unfold fw_at. intros Hfw Hstep.
  destruct a as [[?|]|[?|]| | |?| | | | | | | | |err]; destruct (pc t) eqn:Hpc;
    simpl in Hstep; rewrite ?Hpc in Hstep; simpl in Hstep; try done.
  all: unfold os_Stat in *; step_cases; simpl; rewrite ?Hpc.
  all: try (destruct Hfw as (f0 & Hf0 & Hc0)); simplify_eq.
  all: try (rewrite ?Hf0; simpl; intros ? [= <-]; done).
  all: try (by eexists).
  all: try (rewrite Hfw; done).
  all: try (intros ? [= <-]; apply Hfw in Heqo; congruence).
  - destruct (active _); by eexists.
  - exact Hfw.
  - specialize (Hfw _ eq_refl). congruence.
Qed.

Lemma step_fw_at s l s' :
  Forall fw_at (trackers s) → step s l = Some s' → Forall fw_at (trackers s').
Proof.
  intros Hall Hstep. pose proof (step_alive _ _ _ Hstep) as Halive.
  destruct l as [dt|p|p|e| | |a|i a].
  1-6: unfold step in Hstep; rewrite Halive in Hstep; step_cases;
       rewrite ?(proj1 (close_chan_frame _ _ _)); done.
  - apply step_Dir in Hstep as (d & p & cl & Hs & ->). simpl.
    assert (Ht : ∀ u, trackers (if cl then close_chan Events close_Events u else u) =
                      trackers u).
    { intros u. destruct cl; [|done]. apply close_chan_frame. }
    rewrite Ht. destruct p; simpl; [|done].
    apply Forall_app. split; [done|]. by apply Forall_singleton.
  - apply step_Trk in Hstep as (t & t' & e & Hi & Hs & ->).
    assert (Ht : trackers (apply_effect i e (with_trackers (fun ts => <[i:=t']> ts) s)) =
                 <[i:=t']> (trackers s)) by (by destruct e).
    rewrite Ht. apply Forall_insert; [done|].
    eapply tracker_step_fw_at; [|exact Hs]. by eapply Forall_lookup_1.
Qed.

Lemma run_fw_at s tr s' :
  Forall fw_at (trackers s) → run s tr = Some s' → Forall fw_at (trackers s').
Proof.
  revert s. induction tr as [|l tr IH]; intros s Hall; simpl.
  - by intros [= <-].
  - destruct (step s l) as [s1|] eqn:Hs; simpl; [|done].
    apply IH. by eapply step_fw_at.
Qed.

Lemma reachable_fw_at s : reachable s → Forall fw_at (trackers s).
Proof.
  intros (os & dirp & d & s0 & tr & H0 & Hrun).
  apply NewStableFileWatcher_Some in H0 as (_ & _ & _ & items & _ & ->).
  eapply run_fw_at; [|exact Hrun]. simpl. apply Forall_nil_2.
Qed.

(** X3: Every exit path of [waitUntilFileIsStable] releases what the tracker
    holds: in every reachable state a tracker that has returned has closed its
    notification source, if it had created one, and its timer is not scheduled;
    a tracker that is under way has its source open. *)
Theorem resources_released_on_return (s : State) (i : nat) (t : tracker) :
  reachable s → trackers s !! i = Some t →
  match pc t with
  | TNewWatcher => fw t = None ∧ timer t = None
  | TReturned =>
      (∀ f, fw t = Some f → fsnotify.closed f = true) ∧
      (∀ tm, timer t = Some tm → active tm = false)
  | _ => ∃ f, fw t = Some f ∧ fsnotify.closed f = false
  end.
Proof.
  intros Hreach Hi.
  pose proof (Forall_lookup_1 _ _ _ _ (reachable_fw_at _ Hreach) Hi) as Hfw.
  pose proof (Forall_lookup_1 _ _ _ _ (inv_trackers _ (reachable_inv _ Hreach)) Hi)
    as [_ Htm].
  unfold fw_at in Hfw. destruct (pc t) eqn:Hpc; try done.
  - split; [done|]. destruct (timer t); [|done]. by destruct Htm.
  - split; [done|]. intros tm Heq. rewrite Heq in Htm. by destruct Htm as [[? _] _].
Qed.

(** ** Debounce *)

(** The instant a tracker's timer is armed for only changes when the timer is
    created or reset, and then it is the threshold from now. *)
Lemma tracker_step_when x now files t a t' e tm' :
  tracker_step x now files t a = Some (t', e) → timer t' = Some tm' →
  ((a = AReset ∨ a = ANewTimer) ∧ when tm' = now + StableThreshold x) ∨
  (a ≠ AReset ∧ a ≠ ANewTimer ∧ ∃ tm, timer t = Some tm ∧ when tm' = when tm).
Proof.
  intros Hstep Htm'.
  destruct a as [[?|]|[?|]| | |?| | | | | | | | |err]; destruct (pc t) eqn:Hpc;
    simpl in Hstep; rewrite ?Hpc in Hstep; simpl in Hstep; try done.
  all: unfold os_Stat, Timer_recv, Timer_fire, Timer_Stop in *; step_cases; simpl in Htm'.
  all: try (left; split; [by (left + right)|]; by injection Htm' as <-).
  all: right; (split; [done|]); (split; [done|]).
  all: try (destruct (timer t) as [tm|] eqn:Htm; simpl in Htm'; [|done];
            injection Htm' as <-; by exists tm).
  all: try (injection Htm' as <-; eexists; split; [done|]; done).
  all: try (eexists; split; [done|]; congruence).
  all: destruct (C t0); [done|]; simplify_eq; by eexists.
Qed.

(** After a notification received at instant [n]: the tracker is re-arming
    its timer, or its timer is armed for [n + thr] or later, and whatever has
    been received from it was received at [n + thr] or later. *)
Record debounced (n thr : Z) (i : nat) (s : State) : Prop := {
  db_now : n <= now s;
  db_thr : StableThreshold (w s) = thr;
  db_timer : ∃ t, trackers s !! i = Some t ∧
    match pc t with
    | TStop | TDrain | TReset | TReturned => True
    | TSelect | TStat | TSend => ∀ tm, timer t = Some tm → n + thr <= when tm
    | TNewWatcher | TAdd | TNewTimer => False
    end;
  db_sent : ∀ d, d ∈ sent_by i s → n + thr <= d.2
}.

Lemma debounced_step n thr i s l s' :
  inv s → debounced n thr i s → step s l = Some s' → debounced n thr i s'.
Proof.
  intros Hinv [Hnow Hthr (t & Hi & Htm) Hsent] Hstep.
  pose proof (step_alive _ _ _ Hstep) as Halive.
  pose proof (step_sent_by _ _ _ i Hstep) as Hsb.
  destruct l as [dt|p|p|e| | |a|j a].
  1-6: destruct Hsb as [Hsb|(? & ? & _)]; [|done];
       unfold step in Hstep; rewrite Halive in Hstep; step_cases;
       (constructor;
        [ simpl; rewrite ?(proj1 (proj2 (proj2 (proj2 (proj2 (close_chan_frame _ _ _))))));
          simpl; lia
        | unfold close_chan; simpl; try (destruct (done (w s))); done
        | exists t; rewrite ?(proj1 (close_chan_frame _ _ _)); done
        | rewrite Hsb; done ]).
  - destruct Hsb as [Hsb|(? & ? & _)]; [|done].
    apply step_Dir in Hstep as (d & p & cl & Hs & ->).
    assert (∀ u, now (if cl then close_chan Events close_Events u else u) = now u
               ∧ StableThreshold (w (if cl then close_chan Events close_Events u else u)) =
                 StableThreshold (w u)
               ∧ trackers (if cl then close_chan Events close_Events u else u) = trackers u)
      as Hfr.
    { intros u. destruct cl; [|done]. unfold close_chan. by destruct (Events (w u)). }
    constructor.
    + rewrite (proj1 (Hfr _)). by destruct p.
    + rewrite (proj1 (proj2 (Hfr _))). by destruct p.
    + exists t. rewrite (proj2 (proj2 (Hfr _))). split; [|done].
      destruct p; simpl; [by apply lookup_app_l_Some|done].
    + intros d0 Hd0. apply Hsent. rewrite <- Hsb. exact Hd0.
  - apply step_Trk in Hstep as (u & u' & e & Hj & Hs & Hs').
    assert (Hfr : now s' = now s ∧ StableThreshold (w s') = StableThreshold (w s) ∧
                  trackers s' = <[j:=u']> (trackers s)) by (subst s'; by destruct e).
    destruct Hfr as (Hn' & Hw' & Ht').
    constructor; [lia|congruence| |].
    + rewrite Ht'. destruct (decide (j = i)) as [->|Hne].
      * assert (u = t) as -> by congruence.
        exists u'. rewrite list_lookup_insert_eq by (by eapply lookup_lt_Some).
        split; [done|].
        pose proof (tracker_step_pc _ _ _ _ _ _ _ Hs) as Hflow.
        pose proof (fun tm' => tracker_step_when _ _ _ _ _ _ _ tm' Hs) as Hwhen.
        assert (Hkeep : ∀ tm', timer u' = Some tm' →
                  (a = AReset ∨ a = ANewTimer ∨
                   ∀ tm, timer t = Some tm → n + thr <= when tm) →
                  n + thr <= when tm').
        { intros tm' Htm' Hor.
          destruct (Hwhen _ Htm') as [[_ ->]|(Hr & Hn & tm & Hold & ->)]; [lia|].
          destruct Hor as [?|[?|Hall]]; [done..|]. by apply Hall. }
        destruct a as [[?|]|[?|]| | |?| | | | | | | | |?]; destruct_and?;
          repeat match goal with H : pc t = _ |- _ => rewrite H in Htm end;
          repeat match goal with H : pc u' = _ |- _ => rewrite H end;
          try done.
        -- intros tm' Htm'. apply (Hkeep _ Htm'). by right; right.
        -- match goal with H : _ ∨ _ |- _ => destruct H as [->| ->] end; done.
        -- intros tm' Htm'. apply (Hkeep _ Htm'). by left.
        -- destruct (decide _); [|done].
           intros tm' Htm'. apply (Hkeep _ Htm'). by right; right.
        -- intros tm' Htm'. apply (Hkeep _ Htm'). by right; right.
        -- destruct (pc t); try done;
             intros tm' Htm'; apply (Hkeep _ Htm'); by right; right.
        -- destruct (pc t); try done;
             intros tm' Htm'; apply (Hkeep _ Htm'); by right; right.
      * exists t. by rewrite list_lookup_insert_ne.
    + destruct Hsb as [Hsb|(t0 & Heq & Ht0 & Hpc & _ & Hsb & _)].
      * intros d0. rewrite Hsb. apply Hsent.
      * injection Heq as -> ->. assert (t0 = t) as -> by congruence.
        intros d0. rewrite Hsb, elem_of_app, list_elem_of_singleton.
        intros [Hd| ->]; [by apply Hsent|]. simpl.
        pose proof (Forall_lookup_1 _ _ _ _ (inv_trackers _ Hinv) Hi) as [_ Hti].
        rewrite Hpc in Htm, Hti. destruct (timer t) as [tm|]; [|done].
        destruct Hti as (_ & _ & _ & Hq). specialize (Hq eq_refl).
        specialize (Htm _ eq_refl). lia.
Qed.

Lemma debounced_run n thr i s tr s' :
  reachable s → debounced n thr i s → run s tr = Some s' → debounced n thr i s'.
Proof.
  revert s. induction tr as [|l tr IH]; intros s Hreach Hdb; simpl.
  - by intros [= <-].
  - destruct (step s l) as [s1|] eqn:Hs; simpl; [|done].
    apply IH; [by eapply reachable_step|].
    eapply debounced_step; [by apply reachable_inv|done..].
Qed.

(** X4: The debounce: whatever is received from a tracker after it has received
    a notification is received no earlier than the threshold after that
    notification, however many notifications, fires and resets come between. *)
Theorem no_event_before_quiet_period
    (s : State) (i : nat) (ev : fsnotify.Event) (s1 : State)
    (tr : list label) (s2 : State) (d : nat * FileEvent * Z) :
  reachable s → step s (Trk i (AEvent ev)) = Some s1 → run s1 tr = Some s2 →
  d ∈ sent_by i s2 → now s + StableThreshold (w s) <= d.2.
Proof.
  intros Hreach Hstep Hrun Hd.
  pose proof (reachable_inv _ Hreach) as Hinv.
  assert (Hdb : debounced (now s) (StableThreshold (w s)) i s1).
  { pose proof (step_sent_by _ _ _ i Hstep) as Hsb.
    apply step_Trk in Hstep as (t & t' & e & Hi & Hs & ->).
    pose proof (tracker_step_pc _ _ _ _ _ _ _ Hs) as [Hpc Hpc'].
    assert (e = Quiet) as ->.
    { simpl in Hs. rewrite Hpc in Hs. by step_cases. }
    constructor; simpl; [lia|done| |].
    - exists t'. rewrite list_lookup_insert_eq by (by eapply lookup_lt_Some).
      by rewrite Hpc'.
    - destruct Hsb as [Hsb|(? & ? & _)]; [|done]. simpl in Hsb.
      intros d0 Hd0. exfalso.
      change (d0 ∈ sent_by i (with_trackers (fun ts => <[i:=t']> ts) s)) in Hd0.
      rewrite Hsb in Hd0. apply sent_by_senders in Hd0 as [Hd0 Hi0].
      destruct d0 as [[j ev0] time]. simpl in Hi0. subst j.
      destruct (inv_delivered _ Hinv _ _ _ Hd0) as (u & Hu & Hr & _). congruence. }
  eapply (db_sent _ _ _ _ (debounced_run _ _ _ _ _ _ (reachable_step _ _ _ Hreach Hstep)
                             Hdb Hrun)).
  exact Hd.
Qed.

(** ** Shutdown *)

(** X7: The program panics only after [Close] has been called: as long as the
    cancellation signal has not fired, no goroutine has panicked, [Events] is
    open and the directory loop is running. *)
Theorem no_panic_before_Close (s : State) :
  reachable s → done (w s) = ChOpen →
  panicked s = false ∧ Events (w s) = ChOpen ∧ dir s ≠ DReturned.
Proof.
  intros Hreach Hopen. pose proof (reachable_inv _ Hreach) as Hinv.
  assert (Hd : dir s ≠ DReturned).
  { intros Hd. apply (inv_dir _ Hinv) in Hd. congruence. }
  split; [|split; [|done]].
  - destruct (panicked s) eqn:Hp; [|done].
    apply (inv_panicked _ Hinv) in Hp. congruence.
  - destruct (Events (w s)) eqn:HE; [done|].
    apply (inv_Events _ Hinv) in HE. done.
Qed.

(** X5: Once the cancellation signal has fired the directory loop can always run
    to its end by steps of its own: it finishes the loop over the files found
    at startup, takes the cancellation case, closes [Events] and returns,
    without a panic. *)
Theorem cancellation_closes_Events (s : State) :
  reachable s → done (w s) = ChClosed → panicked s = false →
  ∃ tr s', Forall (fun l => ∃ a, l = Dir a) tr ∧ run s tr = Some s' ∧
    dir s' = DReturned ∧ Events (w s') = ChClosed ∧ panicked s' = false ∧
    delivered s' = delivered s.
Proof.
  intros Hreach Hdone Halive. pose proof (reachable_inv _ Hreach) as Hinv.
  assert (Hsel : ∀ u, dir u = DSelect → done (w u) = ChClosed → panicked u = false →
            Events (w u) = ChOpen →
            ∃ u', step u (Dir DoDone) = Some u' ∧ dir u' = DReturned ∧
                  Events (w u') = ChClosed ∧ panicked u' = false ∧
                  delivered u' = delivered u).
  { intros u Hd Hc Ha HE. unfold step. rewrite Ha. simpl. rewrite Hd. simpl.
    rewrite Hc. simpl. unfold close_chan. simpl. rewrite HE.
    eexists. split; [done|]. by simpl. }
  destruct (dir s) as [files| |] eqn:Hdir.
  - destruct (run_range s files Hdir Halive) as (s1 & Hrun & Hd1 & Ha1 & _ & Hw1 & Ht1).
    assert (HE : Events (w s) = ChOpen).
    { destruct (Events (w s)) eqn:HE; [done|]. apply (inv_Events _ Hinv) in HE. congruence. }
    assert (Hdel : delivered s1 = delivered s).
    { clear -Hrun. revert s Hrun.
      induction (S (length files)) as [|k IH]; intros s; simpl.
      - by intros [= <-].
      - destruct (step s (Dir DoRange)) as [u|] eqn:Hs; simpl; [|done]. intros Hrun.
        rewrite (IH _ Hrun).
        destruct (step_delivered _ _ _ Hs) as [?|(? & ? & ? & _)]; done. }
    destruct (Hsel s1 Hd1) as (s2 & Hs2 & ? & ? & ? & Hdel2); [congruence..|].
    exists (replicate (S (length files)) (Dir DoRange) ++ [Dir DoDone]), s2.
    split; [|split].
    + apply Forall_app. split; [|apply Forall_singleton; by eexists].
      apply Forall_replicate. by eexists.
    + rewrite run_app, Hrun. simpl. by rewrite Hs2.
    + repeat split; try done. congruence.
  - assert (HE : Events (w s) = ChOpen).
    { destruct (Events (w s)) eqn:HE; [done|]. apply (inv_Events _ Hinv) in HE. congruence. }
    destruct (Hsel s Hdir Hdone Halive HE) as (s2 & Hs2 & ? & ? & ? & ?).
    exists [Dir DoDone], s2. split; [apply Forall_singleton; by eexists|].
    split; [simpl; by rewrite Hs2|done].
  - exists [], s. split; [apply Forall_nil_2|]. split; [done|].
    repeat split; try done. by apply (inv_Events _ Hinv).
Qed.

Lemma step_Trk_quiet s i t a t' :
  panicked s = false → trackers s !! i = Some t →
  tracker_step (w s) (now s) (files s) t a = Some (t', Quiet) →
  step s (Trk i a) = Some (with_trackers (fun ts => <[i := t']> ts) s).
Proof.
  intros Halive Hi Hs. unfold step. rewrite Halive, Hi. simpl. by rewrite Hs.
Qed.

(** How far a tracker is from the cancellation case of its select. *)
Definition steps_to_select (t : tracker) : nat :=
  match pc t with
  | TNewWatcher => 7
  | TAdd => 6
  | TNewTimer => 5
  | TStop => 4
  | TDrain => 3
  | TReset => 2
  | TSelect => 1
  | _ => 0
  end.

Lemma cancel_progress s i t :
  inv s → panicked s = false → done (w s) = ChClosed →
  trackers s !! i = Some t →
  pc t ≠ TStat → pc t ≠ TSend → pc t ≠ TReturned →
  ∃ a t1, step s (Trk i a) = Some (with_trackers (fun ts => <[i := t1]> ts) s) ∧
    (steps_to_select t1 < steps_to_select t)%nat ∧ pc t1 ≠ TStat ∧ pc t1 ≠ TSend.
Proof.
  intros Hinv Halive Hdone Hi H1 H2 H3.
  pose proof (Forall_lookup_1 _ _ _ _ (inv_trackers _ Hinv) Hi) as [_ Hti].
  unfold steps_to_select.
  destruct (pc t) eqn:Hpc; try done.
  - exists (ANewWatcher None), (goto TAdd (set_fw fsnotify.fresh t)).
    split; [apply (step_Trk_quiet _ _ t); [done..|by simpl; rewrite Hpc]|]. simpl. repeat split; [lia|done..].
  - exists (AAdd None), (goto TNewTimer t).
    split; [apply (step_Trk_quiet _ _ t); [done..|by simpl; rewrite Hpc]|]. simpl. repeat split; [lia|done..].
  - exists ANewTimer, (goto TSelect (set_timer (NewTimer (now s) (StableThreshold (w s))) t)).
    split; [apply (step_Trk_quiet _ _ t); [done..|by simpl; rewrite Hpc]|]. simpl. repeat split; [lia|done..].
  - exists ADone, (returned t).
    split; [apply (step_Trk_quiet _ _ t); [done..|by simpl; rewrite Hpc, Hdone]|].
    simpl. repeat split; [lia|done..].
  - destruct (timer t) as [tm|] eqn:Htm; [|done].
    exists AStop, (goto (if active tm then TReset else TDrain) (set_timer (Timer_Stop tm).2 t)).
    split; [apply (step_Trk_quiet _ _ t); [done..|by simpl; rewrite Hpc, Htm]|].
    simpl. destruct (active tm); simpl; repeat split; try done; lia.
  - destruct (timer t) as [[wh ac ch]|] eqn:Htm; [|done].
    destruct Hti as ((Hac & Hlen) & _). simpl in *.
    destruct ch as [|v ch]; [done|].
    exists ADrain, (goto TReset (set_timer {| when := wh; active := ac; C := ch |} t)).
    split; [apply (step_Trk_quiet _ _ t); [done..|by simpl; rewrite Hpc, Htm]|].
    simpl. repeat split; [lia|done..].
  - destruct (timer t) as [tm|] eqn:Htm; [|done].
    exists AReset, (goto TSelect (set_timer (Timer_Reset (now s) (StableThreshold (w s)) tm) t)).
    split; [apply (step_Trk_quiet _ _ t); [done..|by simpl; rewrite Hpc, Htm]|].
    simpl. repeat split; [lia|done..].
Qed.

(** X6: After cancellation a tracker that is not at lines 142-146 can always be
    brought to its return by steps of its own, whatever its subscription and
    its timer are doing: it reaches the select, takes the cancellation case and
    returns; nothing is sent and nothing panics on the way. *)
Theorem cancelled_tracker_returns (s : State) (i : nat) (t : tracker) :
  reachable s → done (w s) = ChClosed → panicked s = false →
  trackers s !! i = Some t → pc t ≠ TStat → pc t ≠ TSend →
  ∃ tr s' t', Forall (fun l => ∃ a, l = Trk i a) tr ∧ run s tr = Some s' ∧
    trackers s' !! i = Some t' ∧ pc t' = TReturned ∧
    delivered s' = delivered s ∧ panicked s' = false.
Proof.
  remember (steps_to_select t) as n eqn:Hn.
  revert s t Hn. induction n as [n IH] using lt_wf_ind.
  intros s t -> Hreach Hdone Halive Hi H1 H2.
  destruct (decide (pc t = TReturned)) as [Hr|Hr].
  { exists [], s, t. repeat split; done. }
  destruct (cancel_progress s i t (reachable_inv _ Hreach) Halive Hdone Hi H1 H2 Hr)
    as (a & t1 & Hs & Hlt & H1' & H2').
  assert (Hlen : (i < length (trackers s))%nat) by (by eapply lookup_lt_Some).
  destruct (IH _ Hlt (with_trackers (fun ts => <[i:=t1]> ts) s) t1 eq_refl)
    as (tr & s' & t' & Hall & Hrun & Hi' & Hr' & Hd' & Ha'); try done.
  { by eapply reachable_step. }
  { simpl. by apply list_lookup_insert_eq. }
  exists (Trk i a :: tr), s', t'. repeat split; try done.
  - apply Forall_cons. split; [by eexists|done].
  - simpl. by rewrite Hs.
Qed.

(** ** What never changes, and what only grows *)

Lemma step_grows s l s' :
  step s l = Some s' →
  watchDir (w s') = watchDir (w s) ∧
  StableThreshold (w s') = StableThreshold (w s) ∧
  now s <= now s' ∧
  (done (w s) = ChClosed → done (w s') = ChClosed) ∧
  (Events (w s) = ChClosed → Events (w s') = ChClosed) ∧
  (fsnotify.closed (dirWatcher (w s)) = true →
   fsnotify.closed (dirWatcher (w s')) = true) ∧
  delivered s `prefix_of` delivered s' ∧
  logs s `prefix_of` logs s' ∧
  (length (trackers s) <= length (trackers s'))%nat.
Proof.
  intros Hstep. pose proof (step_alive _ _ _ Hstep) as Halive.
  destruct l as [dt|p|p|e| | |a|i a].
  1-6: unfold step in Hstep; rewrite Halive in Hstep; step_cases;
       unfold close_chan; simpl; try (destruct (done (w s)) eqn:?); simpl;
       repeat split; try done; lia.
  - apply step_Dir in Hstep as (d & p & cl & Hs & ->). simpl.
    unfold close_chan.
    destruct cl, p; simpl; try (destruct (Events (w s)) eqn:?); simpl;
      rewrite ?length_app; repeat split; try done; lia.
  - apply step_Trk in Hstep as (t & t' & e & _ & _ & ->).
    destruct e; simpl; rewrite length_insert; repeat split; try done;
      by apply prefix_app_r.
Qed.

(** X9: The configuration of a watcher is fixed, time does not run backwards,
    closing is final (cancellation cannot be revoked, [Events] and the
    directory watcher are not reopened), and the events received, the log and
    the list of trackers only grow. *)
Theorem history_only_grows (s : State) (tr : list label) (s' : State) :
  run s tr = Some s' →
  watchDir (w s') = watchDir (w s) ∧
  StableThreshold (w s') = StableThreshold (w s) ∧
  now s <= now s' ∧
  (done (w s) = ChClosed → done (w s') = ChClosed) ∧
  (Events (w s) = ChClosed → Events (w s') = ChClosed) ∧
  (fsnotify.closed (dirWatcher (w s)) = true →
   fsnotify.closed (dirWatcher (w s')) = true) ∧
  delivered s `prefix_of` delivered s' ∧
  logs s `prefix_of` logs s' ∧
  (length (trackers s) <= length (trackers s'))%nat.
Proof.
  revert s. induction tr as [|l tr IH]; intros s; simpl.
  - intros [= <-]. repeat split; done.
  - destruct (step s l) as [s1|] eqn:Hs; simpl; [|done]. intros Hrun.
    destruct (step_grows _ _ _ Hs) as (A1 & A2 & A3 & A4 & A5 & A6 & A7 & A8 & A9).
    destruct (IH _ Hrun) as (B1 & B2 & B3 & B4 & B5 & B6 & B7 & B8 & B9).
    repeat split; try congruence; try lia; try tauto; by etrans.
Qed.

(** X8: Create notifications are not deduplicated: a create notification for a
    path starts a new tracker also when a tracker for that path is already
    under way, and the two then exist side by side. *)
Theorem create_is_not_deduplicated
    (s : State) (ev : fsnotify.Event) (j : nat) (t : tracker) :
  dir s = DSelect → panicked s = false →
  fsnotify.closed (dirWatcher (w s)) = false →
  Z.testbit (fsnotify.Op ev) 0 = true →
  trackers s !! j = Some t → path t = fsnotify.Name ev →
  ∃ s' k, step s (Dir (DoEvent ev)) = Some s' ∧ j ≠ k ∧
    trackers s' !! j = Some t ∧
    trackers s' !! k = Some (waitUntilFileIsStable (fsnotify.Name ev) (now s)) ∧
    path <$> trackers s' !! k = path <$> trackers s' !! j.
Proof.
  intros Hd Halive Hopen Hbit Hj Hp.
  assert (Hlt : (j < length (trackers s))%nat) by (by eapply lookup_lt_Some).
  unfold step. rewrite Halive. simpl. rewrite Hd. simpl. rewrite Hopen.
  destruct (decide _) as [[? _]|_]; [done|]. simpl.
  rewrite is_create_testbit, Hbit. simpl.
  eexists _, (length (trackers s)). split; [done|]. simpl.
  split; [lia|].
  rewrite lookup_app_l by done. split; [done|].
  rewrite lookup_app_r by lia. rewrite Nat.sub_diag. simpl. split; [done|].
  by rewrite Hj, <- Hp.
Qed.

(** X10: A tracker blocked in the send of line 146 does not look at the
    cancellation signal: whether or not [w.done] is closed, the only actions it
    has are the completed send, when [Events] is open and a receiver takes the
    value, and the send on a closed channel, which panics; it returns only by
    the first, and then the event has been delivered. *)
Theorem send_ignores_cancellation
    (s : State) (i : nat) (t : tracker) (a : taction) (s' : State) :
  trackers s !! i = Some t → pc t = TSend →
  (∀ err, a ≠ AError err) → a ≠ AFire →
  step s (Trk i a) = Some s' →
  (a = ASent ∧ Events (w s) = ChOpen ∧ panicked s' = false ∧
   delivered s' = delivered s ++ [(i, {| Path := path t |}, now s)] ∧
   trackers s' !! i = Some (returned t)) ∨
  (a = ASendClosed ∧ Events (w s) = ChClosed ∧ panicked s' = true ∧
   delivered s' = delivered s ∧ trackers s' !! i = Some t).
Proof.
  intros Hi Hpc Herr Hfire Hstep.
  assert (Hlt : (i < length (trackers s))%nat) by (by eapply lookup_lt_Some).
  pose proof (step_alive _ _ _ Hstep) as Halive.
  apply step_Trk in Hstep as (t0 & t' & e & Hi0 & Hs & ->).
  assert (t0 = t) as -> by congruence.
  destruct a as [[?|]|[?|]| | |?| | | | | | | | |err]; simpl in Hs;
    rewrite ?Hpc in Hs; try done.
  - left. step_cases. simpl. repeat split; try done.
    by apply list_lookup_insert_eq.
  - right. step_cases. simpl. repeat split; try done.
    by apply list_lookup_insert_eq.
  - by destruct (Herr err).
Qed.

(** X11: The loop over the files found at startup does not look at the
    cancellation signal: when [Close] has been called before the loop has run,
    the loop still starts one tracker for every file, and only then does
    [start] reach its select. *)
Theorem startup_ignores_cancellation (s : State) (files : list FileInfo) :
  dir s = DRange files → panicked s = false → done (w s) = ChClosed →
  ∃ s1, run s (replicate (S (length files)) (Dir DoRange)) = Some s1 ∧
    dir s1 = DSelect ∧ done (w s1) = ChClosed ∧ panicked s1 = false ∧
    trackers s1 = trackers s ++
      ((fun f => waitUntilFileIsStable (filepath_Join (watchDir (w s)) (fi_Name f)) (now s))
         <$> files) ∧
    (length (trackers s1) = length (trackers s) + length files)%nat.
Proof.
  intros Hdir Halive Hdone.
  destruct (run_range s files Hdir Halive) as (s1 & Hrun & Hd & Ha & _ & Hw & Ht).
  exists s1. repeat split; try done.
  - by rewrite Hw.
  - by rewrite Ht, length_app, length_fmap.
Qed.

End Program.

(** ** Worked executions

    A directory [/w] holding the file [a.mp4] and the directory [sub], watched
    with a threshold of 500. *)

(** The paths of the example are clean, so that joining is concatenation with a
    separator. *)
Definition join (dir name : string) : string := dir +:+ "/" +:+ name.

Definition demo_os : Env :=
  {| env_NewWatcher := None;
     env_ReadDir := fun _ =>
       inl [ {| fi_Name := "a.mp4"; fi_IsDir := false |};
             {| fi_Name := "sub"; fi_IsDir := true |} ];
     env_Add := fun _ => None;
     env_now := 0;
     env_files := {[ "/w/a.mp4" ]} |}.

Definition demo_start : State :=
  {| w := {| watchDir := "/w"; dirWatcher := fsnotify.fresh; done := ChOpen;
             StableThreshold := 500; Events := ChOpen |};
     now := 0; files := {[ "/w/a.mp4" ]}; closing := 0;
     dir := DRange [ {| fi_Name := "a.mp4"; fi_IsDir := false |} ];
     trackers := []; delivered := []; logs := [LogFound "a.mp4"];
     panicked := false |}.

(** The state an execution of the example ends in. *)
Definition demo_after (tr : list label) : State :=
  default demo_start (run join demo_start tr).

(** The tracker of [a.mp4] is started, subscribes and arms its timer. *)
Definition tr_spawned : list label := [Dir DoRange; Dir DoRange].
Definition tr_select : list label :=
  tr_spawned ++ [Trk 0 (ANewWatcher None); Trk 0 (AAdd None); Trk 0 ANewTimer].
(** The quiet period elapses and the timer fires. *)
Definition tr_fired : list label := tr_select ++ [Tick 500; Trk 0 AFire].
Definition tr_stat : list label := tr_fired ++ [Trk 0 ATimer].
Definition tr_send : list label := tr_stat ++ [Trk 0 AStat].
Definition tr_sent : list label := tr_send ++ [Trk 0 ASent].

Lemma demo_constructed :
  NewStableFileWatcher demo_os "/w" 500 = (Some demo_start, None).
Proof. reflexivity. Qed.

Lemma demo_reachable (tr : list label) (s : State) :
  run join demo_start tr = Some s → reachable join s.
Proof. intros H. exists demo_os, "/w", 500, demo_start, tr. split; [reflexivity|exact H]. Defined.

Definition a_mp4 (p : tpc) (f : option fsnotify.Watcher) (tm : option Timer) : tracker :=
  {| path := "/w/a.mp4"; pc := p; fw := f; timer := tm; spawned := 0 |}.

Lemma demo_run (tr : list label) :
  is_Some (run join demo_start tr) → run join demo_start tr = Some (demo_after tr).
Proof. unfold demo_after. by intros [s ->]. Defined.

(** The timer of [a.mp4] has fired and the file exists, so the tracker goes on
    to the send. *)
Lemma timer_fire_checks_existence_witness :
  let s := demo_after tr_stat in
  let t := a_mp4 TStat (Some fsnotify.fresh)
             (Some {| when := 500; active := false; C := [] |}) in
  panicked s = false ∧ trackers s !! 0%nat = Some t ∧
  ∃ s1, step join s (Trk 0 AStat) = Some s1 ∧ delivered s1 = delivered s ∧
        trackers s1 !! 0%nat = Some (goto TSend t).
Proof.
  intros s t.
  assert (H1 : panicked s = false) by reflexivity.
  assert (H2 : trackers s !! 0%nat = Some t) by reflexivity.
  split; [exact H1|]. split; [exact H2|].
  destruct (timer_fire_checks_existence join s 0 t H1 H2) as (_ & H & _).
  destruct (H eq_refl) as (s1 & Hs & Hd & Hx).
  exists s1. split; [exact Hs|]. split; [exact Hd|].
  destruct (decide (path t ∈ files s)) as [_|Hn]; [exact (proj1 Hx)|].
  exfalso. apply Hn. vm_compute. reflexivity.
Defined.

(** C2 at the example: [a.mp4] is left alone; when its tracker has returned,
    exactly one event has been received from it, at instant 500. *)
Lemma one_event_per_tracker_witness :
  let s := demo_after tr_spawned in
  let t := a_mp4 TNewWatcher None None in
  reachable join s ∧ trackers s !! 0%nat = Some t ∧
  ∃ time, sent_by 0 (demo_after tr_sent) = [(0%nat, {| Path := "/w/a.mp4" |}, time)] ∧
          0 + 500 <= time.
Proof.
  intros s t.
  assert (H1 : reachable join s).
  { apply (demo_reachable tr_spawned). vm_compute. reflexivity. }
  assert (H2 : trackers s !! 0%nat = Some t) by (vm_compute; reflexivity).
  split; [exact H1|]. split; [exact H2|].
  destruct (one_event_per_tracker join s 0 t H1 H2) as [_ H].
  assert (Hfile : path t ∈ files s) by (vm_compute; reflexivity).
  assert (Hrun : run join s
            [Trk 0 (ANewWatcher None); Trk 0 (AAdd None); Trk 0 ANewTimer;
             Tick 500; Trk 0 AFire; Trk 0 ATimer; Trk 0 AStat; Trk 0 ASent]
          = Some (demo_after tr_sent)) by (vm_compute; reflexivity).
  assert (Hall : Forall (undisturbed 0 (path t))
            [Trk 0 (ANewWatcher None); Trk 0 (AAdd None); Trk 0 ANewTimer;
             Tick 500; Trk 0 AFire; Trk 0 ATimer; Trk 0 AStat; Trk 0 ASent]).
  { repeat (apply Forall_cons; split; [exact I|]). apply Forall_nil_2. }
  assert (Hdone : done (w s) = ChOpen) by (vm_compute; reflexivity).
  destruct (H eq_refl Hfile Hdone _ _ Hall Hrun) as (t' & Ht' & Hret & _).
  vm_compute in Ht'. injection Ht' as <-.
  apply Hret. reflexivity.
Defined.

(** C4 at the example: a notification arrives after the timer has fired; the
    stop reports it and the tracker goes to the drain. *)
Lemma stop_drain_reset_witness :
  let ev := {| fsnotify.Name := "/w/a.mp4"; fsnotify.Op := fsnotify.Write |} in
  let s := demo_after (tr_fired ++ [Trk 0 (AEvent ev)]) in
  let tm := {| when := 500; active := false; C := [500] |} in
  let t := a_mp4 TStop (Some fsnotify.fresh) (Some tm) in
  reachable join s ∧ panicked s = false ∧ trackers s !! 0%nat = Some t ∧
  (pending tm <= 1)%nat ∧
  ∃ s1, step join s (Trk 0 AStop) = Some s1 ∧
        trackers s1 !! 0%nat = Some (goto TDrain (set_timer tm t)).
Proof.
  intros ev s tm t.
  assert (H1 : reachable join s).
  { apply (demo_reachable (tr_fired ++ [Trk 0 (AEvent ev)])). vm_compute. reflexivity. }
  assert (H2 : panicked s = false) by (vm_compute; reflexivity).
  assert (H3 : trackers s !! 0%nat = Some t) by (vm_compute; reflexivity).
  split; [exact H1|]. split; [exact H2|]. split; [exact H3|].
  destruct (stop_drain_reset join s 0 t tm H1 H2 H3 eq_refl) as (Hp & _ & Hstop & _).
  split; [exact Hp|]. destruct (Hstop eq_refl) as (_ & s1 & Hs & Ht).
  exists s1. split; [exact Hs|exact Ht].
Defined.

(** C5 at the example: a create notification for [b.mp4] starts a tracker. *)
Lemma start_spawns_iff_create_witness :
  let s := demo_after tr_select in
  let ev := {| fsnotify.Name := "/w/b.mp4"; fsnotify.Op := fsnotify.Create |} in
  dir s = DSelect ∧ panicked s = false ∧
  ∃ s', step join s (Dir (DoEvent ev)) = Some s' ∧
        trackers s' = trackers s ++ [waitUntilFileIsStable "/w/b.mp4" (now s)].
Proof.
  intros s ev.
  assert (H1 : dir s = DSelect) by (vm_compute; reflexivity).
  assert (H2 : panicked s = false) by (vm_compute; reflexivity).
  split; [exact H1|]. split; [exact H2|].
  destruct (start_spawns_iff_create join s H1 H2) as [H _].
  assert (Hopen : fsnotify.closed (dirWatcher (w s)) = false) by (vm_compute; reflexivity).
  destruct (H ev Hopen) as (s' & Hs & _ & Ht).
  exists s'. split; [exact Hs|exact Ht].
Defined.

(** C6 at the example: [a.mp4] gets a tracker on [/w/a.mp4], [sub] gets none. *)
Lemma preexisting_files_are_tracked_witness :
  NewStableFileWatcher demo_os "/w" 500 = (Some demo_start, None) ∧
  ∃ s1, run join demo_start [Dir DoRange; Dir DoRange] = Some s1 ∧
        dir s1 = DSelect ∧ trackers s1 = [waitUntilFileIsStable "/w/a.mp4" 0].
Proof.
  split; [exact demo_constructed|].
  destruct (preexisting_files_are_tracked join demo_os "/w" 500 demo_start demo_constructed)
    as (items & Hrd & _ & _ & (s1 & Hrun & Hd & Ht) & _).
  injection Hrd as <-.
  exists s1. split; [exact Hrun|]. split; [exact Hd|exact Ht].
Defined.

(** C8 at the example: the tracker of [a.mp4] cannot create its notification
    source; it logs and returns, and the directory loop is where it was. *)
Lemma per_file_failures_are_local_witness :
  let s := demo_after tr_spawned in
  let t := a_mp4 TNewWatcher None None in
  let a := ANewWatcher (Some (Errno "too many open files")) in
  panicked s = false ∧ trackers s !! 0%nat = Some t ∧ local_failure s t a ∧
  ∃ e s', step join s (Trk 0 a) = Some s' ∧ is_wrapped e = true ∧
          s' = logged 0 (returned t) (LogErr e) s ∧ dir s' = dir s ∧
          delivered s' = delivered s.
Proof.
  intros s t a.
  assert (H1 : panicked s = false) by (vm_compute; reflexivity).
  assert (H2 : trackers s !! 0%nat = Some t) by (vm_compute; reflexivity).
  assert (H3 : local_failure s t a).
  { left. split; [reflexivity|]. eexists. reflexivity. }
  split; [exact H1|]. split; [exact H2|]. split; [exact H3|].
  destruct (per_file_failures_are_local join s 0 t a H1 H2 H3)
    as (e & s' & Hs & Heq & Hw & _ & Hd & _ & Hsame & _).
  exists e, s'. split; [exact Hs|]. split; [exact Hw|]. split; [exact Heq|].
  split; [|exact Hd]. symmetry. apply Hsame.
Defined.

(** C9, the claim refuted at the example: a second [Close] does not leave the
    program as the first one did, it makes it panic. *)
Lemma Close_twice_panics :
  ∃ s1 s2, Close join demo_start = Some s1 ∧ Close join s1 = Some s2 ∧
           panicked s1 = false ∧ panicked s2 = true ∧ Some s2 ≠ Some s1.
Proof.
  eexists _, _. split; [vm_compute; reflexivity|].
  split; [vm_compute; reflexivity|]. split; [reflexivity|]. split; [reflexivity|].
  intros H. discriminate H.
Qed.

(** C9 as amended, at the example. *)
Lemma Close_once_then_panics_witness :
  panicked demo_start = false ∧ done (w demo_start) = ChOpen ∧
  ∃ s1, Close join demo_start = Some s1 ∧ panicked s1 = false ∧
        done (w s1) = ChClosed ∧
        ∃ s2, Close join s1 = Some s2 ∧ panicked s2 = true.
Proof.
  split; [reflexivity|]. split; [reflexivity|].
  destruct (Close_once_then_panics join demo_start eq_refl eq_refl)
    as (s1 & Hc & Hp & Hd & _ & _ & _ & _ & _ & _ & s2 & Hc2 & Hp2).
  exists s1. split; [exact Hc|]. split; [exact Hp|]. split; [exact Hd|].
  exists s2. split; [exact Hc2|exact Hp2].
Defined.

(** C10 at the example: both notification sources announce an error while the
    tracker of [a.mp4] waits; the timer fires as it would have. *)
Lemma errors_are_never_consumed_witness :
  let s := demo_after tr_select in
  let e := Errno "inotify: queue overflow" in
  let tr := [DirError e; Trk 0 (AError e); Tick 500; Trk 0 AFire] in
  let s' := demo_after (tr_select ++ tr) in
  reachable join s ∧ run join s tr = Some s' ∧
  run join (forget s) [Tick 500; Trk 0 AFire] = Some (forget s') ∧
  fsnotify.Errors (dirWatcher (w s')) = [e].
Proof.
  intros s e tr s'.
  assert (H1 : reachable join s).
  { apply (demo_reachable tr_select). vm_compute. reflexivity. }
  assert (H2 : run join s tr = Some s') by (vm_compute; reflexivity).
  split; [exact H1|]. split; [exact H2|].
  destruct (errors_are_never_consumed join s tr s' H1 H2) as (Hrun & _).
  split; [exact Hrun|]. vm_compute. reflexivity.
Defined.

(** C3, where the code departs from it: the tracker of [a.mp4] is blocked in
    the send of line 146 when [Close] fires the cancellation signal.  The send
    is not guarded by [w.done]: if a receiver comes first, the event is
    delivered after cancellation; if the directory loop comes first and closes
    [Events], the tracker sends on a closed channel and the program panics. *)
Theorem event_after_cancellation :
  let s := demo_after (tr_send ++ [CloseDirWatcher; CloseDone]) in
  let s' := demo_after (tr_send ++ [CloseDirWatcher; CloseDone; Dir DoDone]) in
  reachable join s ∧ done (w s) = ChClosed ∧ delivered s = [] ∧
  (∃ s1, step join s (Trk 0 ASent) = Some s1 ∧
         delivered s1 = [(0%nat, {| Path := "/w/a.mp4" |}, 500)]) ∧
  reachable join s' ∧ Events (w s') = ChClosed ∧ dir s' = DReturned ∧
  (∃ s2, step join s' (Trk 0 ASendClosed) = Some s2 ∧ panicked s2 = true) ∧
  step join s' (Trk 0 ADone) = None.
Proof.
  intros s s'.
  split. { apply (demo_reachable (tr_send ++ [CloseDirWatcher; CloseDone])).
           vm_compute. reflexivity. }
  split; [vm_compute; reflexivity|]. split; [vm_compute; reflexivity|].
  split. { eexists. split; vm_compute; reflexivity. }
  split. { apply (demo_reachable (tr_send ++ [CloseDirWatcher; CloseDone; Dir DoDone])).
           vm_compute. reflexivity. }
  split; [vm_compute; reflexivity|]. split; [vm_compute; reflexivity|].
  split. { eexists. split; vm_compute; reflexivity. }
  vm_compute. reflexivity.
Qed.

(** C1, where the code departs from it: the timer of [a.mp4] has fired after
    the full quiet period and the tracker has taken the timer case; the file
    exists, so the tracker goes on to the send of line 146.  [Close] is called
    before a receiver takes the value and the directory loop closes [Events].
    The send is not guarded by [w.done]: the tracker cannot take the
    cancellation case any more and the send cannot complete, it sends on a
    closed channel and the program panics.  No event has been emitted for the
    existing file and the tracker has not returned. *)
Theorem existing_file_without_event :
  let s0 := demo_after tr_stat in
  let s1 := demo_after (tr_send ++ [CloseDirWatcher; CloseDone; Dir DoDone]) in
  let t := a_mp4 TSend (Some fsnotify.fresh)
             (Some {| when := 500; active := false; C := [] |}) in
  reachable join s0 ∧ now s0 = StableThreshold (w s0) ∧
  trackers s0 !! 0%nat = Some (goto TStat t) ∧ "/w/a.mp4" ∈ files s0 ∧
  run join s0 [Trk 0 AStat; CloseDirWatcher; CloseDone; Dir DoDone] = Some s1 ∧
  "/w/a.mp4" ∈ files s1 ∧ trackers s1 !! 0%nat = Some t ∧
  step join s1 (Trk 0 ADone) = None ∧ step join s1 (Trk 0 ASent) = None ∧
  ∃ s2, step join s1 (Trk 0 ASendClosed) = Some s2 ∧
    panicked s2 = true ∧ delivered s2 = [] ∧ trackers s2 !! 0%nat = Some t ∧
    ∀ l, step join s2 l = None.
Proof.
  intros s0 s1 t.
  split. { apply (demo_reachable tr_stat). vm_compute. reflexivity. }
  split; [vm_compute; reflexivity|]. split; [vm_compute; reflexivity|].
  split; [vm_compute; reflexivity|].
  split; [vm_compute; reflexivity|].
  split; [vm_compute; reflexivity|].
  split; [vm_compute; reflexivity|].
  split; [vm_compute; reflexivity|]. split; [vm_compute; reflexivity|].
  destruct (step join s1 (Trk 0 ASendClosed)) as [s2|] eqn:Hs;
    [|vm_compute in Hs; discriminate Hs].
  exists s2. split; [reflexivity|].
  assert (Hp : panicked s2 = true).
  { vm_compute in Hs. injection Hs as <-. reflexivity. }
  split; [exact Hp|].
  split. { vm_compute in Hs. injection Hs as <-. reflexivity. }
  split. { vm_compute in Hs. injection Hs as <-. reflexivity. }
  intros l. destruct (step join s2 l) as [s3|] eqn:Hl; [|reflexivity].
  apply step_alive in Hl. congruence.
Qed.

(** ** Further properties at the example *)

(** [Close] has been called while the tracker of [a.mp4] waits in its select. *)
Definition tr_closed : list label := tr_select ++ [CloseDirWatcher; CloseDone].

(** After cancellation the select loop of [start] receives the zero
    notification of the closed directory watcher and starts nothing; a create
    notification is no longer received. *)
Lemma cancellation_stops_discovery_witness :
  let s := demo_after tr_closed in
  reachable join s ∧ done (w s) = ChClosed ∧ dir s = DSelect ∧
  step join s (Dir (DoEvent {| fsnotify.Name := "/w/b.mp4";
                               fsnotify.Op := fsnotify.Create |})) = None ∧
  ∃ s', step join s (Dir (DoEvent fsnotify.zero)) = Some s' ∧
        trackers s' = trackers s ∧ dir s' = DSelect.
Proof.
  intros s.
  assert (H1 : reachable join s).
  { apply (demo_reachable tr_closed). vm_compute. reflexivity. }
  assert (H2 : done (w s) = ChClosed) by (vm_compute; reflexivity).
  assert (H3 : dir s = DSelect) by (vm_compute; reflexivity).
  split; [exact H1|]. split; [exact H2|]. split; [exact H3|].
  split; [vm_compute; reflexivity|].
  destruct (step join s (Dir (DoEvent fsnotify.zero))) as [s'|] eqn:Hs;
    [|vm_compute in Hs; discriminate Hs].
  exists s'. split; [reflexivity|].
  exact (proj2 (proj2 (cancellation_stops_discovery join s _ s' H1 H2 H3 Hs))).
Defined.

(** The directory loop takes the cancellation case and closes [Events]. *)
Lemma Events_closed_once_witness :
  let s := demo_after tr_closed in
  reachable join s ∧
  ∃ s', step join s (Dir DoDone) = Some s' ∧ Events (w s') = ChClosed ∧
        dir s' = DReturned ∧ panicked s' = false.
Proof.
  intros s.
  assert (H1 : reachable join s).
  { apply (demo_reachable tr_closed). vm_compute. reflexivity. }
  split; [exact H1|].
  destruct (step join s (Dir DoDone)) as [s'|] eqn:Hs;
    [|vm_compute in Hs; discriminate Hs].
  exists s'. split; [reflexivity|].
  assert (HE : Events (w s') = ChClosed).
  { vm_compute in Hs. injection Hs as <-. reflexivity. }
  split; [exact HE|].
  destruct (Events_closed_once join s _ s' H1 Hs) as [H _].
  destruct (H eq_refl HE) as (_ & _ & _ & Hd & Hp).
  split; [exact Hd|exact Hp].
Defined.

(** The tracker of [a.mp4] has returned after its event: its notification
    source is closed and its timer is not scheduled. *)
Lemma resources_released_on_return_witness :
  let s := demo_after tr_sent in
  let t := a_mp4 TReturned (Some (fsnotify.Close fsnotify.fresh))
             (Some {| when := 500; active := false; C := [] |}) in
  reachable join s ∧ trackers s !! 0%nat = Some t ∧
  (∀ f, fw t = Some f → fsnotify.closed f = true) ∧
  (∀ tm, timer t = Some tm → active tm = false).
Proof.
  intros s t.
  assert (H1 : reachable join s).
  { apply (demo_reachable tr_sent). vm_compute. reflexivity. }
  assert (H2 : trackers s !! 0%nat = Some t) by (vm_compute; reflexivity).
  split; [exact H1|]. split; [exact H2|].
  exact (resources_released_on_return join s 0 t H1 H2).
Defined.

(** The scenario of a file modified at 200 with a threshold of 500: the event
    is received at 700. *)
Lemma no_event_before_quiet_period_witness :
  let ev := {| fsnotify.Name := "/w/a.mp4"; fsnotify.Op := fsnotify.Write |} in
  let s := demo_after (tr_select ++ [Tick 200]) in
  let tr := [Trk 0 AStop; Trk 0 AReset; Tick 500; Trk 0 AFire; Trk 0 ATimer;
             Trk 0 AStat; Trk 0 ASent] in
  let d := (0%nat, {| Path := "/w/a.mp4" |}, 700) in
  reachable join s ∧
  ∃ s1 s2, step join s (Trk 0 (AEvent ev)) = Some s1 ∧ run join s1 tr = Some s2 ∧
           d ∈ sent_by 0 s2 ∧ 200 + 500 <= d.2.
Proof.
  intros ev s tr d.
  assert (H1 : reachable join s).
  { apply (demo_reachable (tr_select ++ [Tick 200])). vm_compute. reflexivity. }
  split; [exact H1|].
  destruct (step join s (Trk 0 (AEvent ev))) as [s1|] eqn:Hs;
    [|vm_compute in Hs; discriminate Hs].
  destruct (run join s1 tr) as [s2|] eqn:Hrun.
  2:{ vm_compute in Hs. injection Hs as <-. vm_compute in Hrun. discriminate Hrun. }
  assert (Hd : d ∈ sent_by 0 s2).
  { vm_compute in Hs. injection Hs as <-. vm_compute in Hrun. injection Hrun as <-.
    vm_compute. apply list_elem_of_here. }
  exists s1, s2. split; [reflexivity|]. split; [exact Hrun|]. split; [exact Hd|].
  exact (no_event_before_quiet_period join s 0 ev s1 tr s2 d H1 Hs Hrun Hd).
Defined.

(** [Close] is called before the directory loop has run at all: the loop can
    still finish its startup loop, see the cancellation and close [Events]. *)
Lemma cancellation_closes_Events_witness :
  let s := demo_after [CloseDirWatcher; CloseDone] in
  reachable join s ∧ done (w s) = ChClosed ∧ panicked s = false ∧
  ∃ tr s', run join s tr = Some s' ∧ dir s' = DReturned ∧
           Events (w s') = ChClosed ∧ panicked s' = false.
Proof.
  intros s.
  assert (H1 : reachable join s).
  { apply (demo_reachable [CloseDirWatcher; CloseDone]). vm_compute. reflexivity. }
  assert (H2 : done (w s) = ChClosed) by (vm_compute; reflexivity).
  assert (H3 : panicked s = false) by (vm_compute; reflexivity).
  split; [exact H1|]. split; [exact H2|]. split; [exact H3|].
  destruct (cancellation_closes_Events join s H1 H2 H3)
    as (tr & s' & _ & Hrun & Hd & HE & Hp & _).
  exists tr, s'. split; [exact Hrun|]. split; [exact Hd|]. split; [exact HE|exact Hp].
Defined.

(** The tracker of [a.mp4] waits in its select when [Close] is called: it can
    return without sending. *)
Lemma cancelled_tracker_returns_witness :
  let s := demo_after tr_closed in
  let t := a_mp4 TSelect (Some fsnotify.fresh)
             (Some {| when := 500; active := true; C := [] |}) in
  reachable join s ∧ done (w s) = ChClosed ∧ panicked s = false ∧
  trackers s !! 0%nat = Some t ∧
  ∃ tr s' t', run join s tr = Some s' ∧ trackers s' !! 0%nat = Some t' ∧
              pc t' = TReturned ∧ delivered s' = delivered s.
Proof.
  intros s t.
  assert (H1 : reachable join s).
  { apply (demo_reachable tr_closed). vm_compute. reflexivity. }
  assert (H2 : done (w s) = ChClosed) by (vm_compute; reflexivity).
  assert (H3 : panicked s = false) by (vm_compute; reflexivity).
  assert (H4 : trackers s !! 0%nat = Some t) by (vm_compute; reflexivity).
  split; [exact H1|]. split; [exact H2|]. split; [exact H3|]. split; [exact H4|].
  assert (H5 : pc t ≠ TStat) by discriminate.
  assert (H6 : pc t ≠ TSend) by discriminate.
  destruct (cancelled_tracker_returns join s 0 t H1 H2 H3 H4 H5 H6)
    as (tr & s' & t' & _ & Hrun & Ht' & Hr & Hd & _).
  exists tr, s', t'. split; [exact Hrun|]. split; [exact Ht'|]. split; [exact Hr|exact Hd].
Defined.

(** Nobody has called [Close] while the tracker of [a.mp4] is in its send. *)
Lemma no_panic_before_Close_witness :
  let s := demo_after tr_send in
  reachable join s ∧ done (w s) = ChOpen ∧
  panicked s = false ∧ Events (w s) = ChOpen ∧ dir s ≠ DReturned.
Proof.
  intros s.
  assert (H1 : reachable join s).
  { apply (demo_reachable tr_send). vm_compute. reflexivity. }
  assert (H2 : done (w s) = ChOpen) by (vm_compute; reflexivity).
  split; [exact H1|]. split; [exact H2|].
  exact (no_panic_before_Close join s H1 H2).
Defined.

(** From the start of the example to the delivery of its event. *)
Lemma history_only_grows_witness :
  let s' := demo_after tr_sent in
  run join demo_start tr_sent = Some s' ∧
  StableThreshold (w s') = 500 ∧ now demo_start <= now s' ∧
  delivered demo_start `prefix_of` delivered s' ∧
  logs demo_start `prefix_of` logs s'.
Proof.
  intros s'.
  assert (H1 : run join demo_start tr_sent = Some s') by (vm_compute; reflexivity).
  split; [exact H1|].
  destruct (history_only_grows join demo_start tr_sent s' H1)
    as (_ & Hthr & Hnow & _ & _ & _ & Hdel & Hlogs & _).
  split; [exact Hthr|]. split; [exact Hnow|]. split; [exact Hdel|exact Hlogs].
Defined.

(** A second create notification for [a.mp4] while its tracker waits. *)
Lemma create_is_not_deduplicated_witness :
  let s := demo_after tr_select in
  let ev := {| fsnotify.Name := "/w/a.mp4"; fsnotify.Op := fsnotify.Create |} in
  let t := a_mp4 TSelect (Some fsnotify.fresh)
             (Some {| when := 500; active := true; C := [] |}) in
  dir s = DSelect ∧ panicked s = false ∧ trackers s !! 0%nat = Some t ∧
  ∃ s' k, step join s (Dir (DoEvent ev)) = Some s' ∧ 0%nat ≠ k ∧
    trackers s' !! 0%nat = Some t ∧
    trackers s' !! k = Some (waitUntilFileIsStable "/w/a.mp4" (now s)).
Proof.
  intros s ev t.
  assert (H1 : dir s = DSelect) by (vm_compute; reflexivity).
  assert (H2 : panicked s = false) by (vm_compute; reflexivity).
  assert (H3 : fsnotify.closed (dirWatcher (w s)) = false) by (vm_compute; reflexivity).
  assert (H4 : trackers s !! 0%nat = Some t) by (vm_compute; reflexivity).
  split; [exact H1|]. split; [exact H2|]. split; [exact H4|].
  destruct (create_is_not_deduplicated join s ev 0 t H1 H2 H3 eq_refl H4 eq_refl)
    as (s' & k & Hs & Hk & Hj & Hnew & _).
  exists s', k. split; [exact Hs|]. split; [exact Hk|]. split; [exact Hj|exact Hnew].
Defined.

(** The tracker of [a.mp4] is in its send when [Close] is called; a receiver
    still gets its event. *)
Lemma send_ignores_cancellation_witness :
  let s := demo_after (tr_send ++ [CloseDirWatcher; CloseDone]) in
  let t := a_mp4 TSend (Some fsnotify.fresh)
             (Some {| when := 500; active := false; C := [] |}) in
  trackers s !! 0%nat = Some t ∧ done (w s) = ChClosed ∧
  ∃ s', step join s (Trk 0 ASent) = Some s' ∧
        delivered s' = delivered s ++ [(0%nat, {| Path := "/w/a.mp4" |}, now s)].
Proof.
  intros s t.
  assert (H1 : trackers s !! 0%nat = Some t) by (vm_compute; reflexivity).
  split; [exact H1|]. split; [vm_compute; reflexivity|].
  destruct (step join s (Trk 0 ASent)) as [s'|] eqn:Hs;
    [|vm_compute in Hs; discriminate Hs].
  exists s'. split; [reflexivity|].
  assert (H2 : ∀ err, ASent ≠ AError err) by (intros err; discriminate).
  assert (H3 : ASent ≠ AFire) by discriminate.
  destruct (send_ignores_cancellation join s 0 t ASent s' H1 eq_refl H2 H3 Hs)
    as [(_ & _ & _ & Hd & _)|(Ha & _)]; [exact Hd|discriminate Ha].
Defined.

(** [Close] is called before the directory loop has run: the tracker of
    [a.mp4] is started all the same. *)
Lemma startup_ignores_cancellation_witness :
  let s := demo_after [CloseDirWatcher; CloseDone] in
  let files := [ {| fi_Name := "a.mp4"; fi_IsDir := false |} ] in
  dir s = DRange files ∧ panicked s = false ∧ done (w s) = ChClosed ∧
  ∃ s1, run join s [Dir DoRange; Dir DoRange] = Some s1 ∧ dir s1 = DSelect ∧
        trackers s1 = [waitUntilFileIsStable "/w/a.mp4" 0].
Proof.
  intros s files.
  assert (H1 : dir s = DRange files) by (vm_compute; reflexivity).
  assert (H2 : panicked s = false) by (vm_compute; reflexivity).
  assert (H3 : done (w s) = ChClosed) by (vm_compute; reflexivity).
  split; [exact H1|]. split; [exact H2|]. split; [exact H3|].
  destruct (startup_ignores_cancellation join s files H1 H2 H3)
    as (s1 & Hrun & Hd & _ & _ & Ht & _).
  exists s1. split; [exact Hrun|]. split; [exact Hd|exact Ht].
Defined.
